(** * nunjucks-loader: dependency extraction and asset rewriting

    A shallow embedding of [src/precompile/with-dependencies.js], of the
    template-dependency collector [getDependencies] and of the asset
    rewriter [replaceAssets], with the properties their specification
    states about them. *)

From Stdlib Require Import List String Ascii Bool Arith Lia ZArith DecimalString.
From Stdlib Require Import Permutation.
Import ListNotations.
Local Open Scope list_scope.
Local Open Scope string_scope.
Set Warnings "-register-all".

(** ** JavaScript values, errors and completion records *)

Module Js.

(** The values this code handles.  A number is kept as the text ToString
    gives for it, which determines the number as far as [===] tells numbers
    apart; NaN, which is not [===] to itself, is left out.  An object is
    compared by identity, so it is its identity [id], with the text its
    [toString] gives. *)
Inductive value : Type :=
| VUndefined
| VNull
| VBool (b : bool)
| VNum (text : string)
| VStr (s : string)
| VObj (id : nat) (text : string).

Definition value_eq_dec (a b : value) : {a = b} + {a <> b}.
Proof. repeat decide equality. Defined.

(** [a === b] *)
Definition strictEq (a b : value) : bool :=
  if value_eq_dec a b then true else false.

(** The double quote character, and [s] between two of them. *)
Definition dquote : string := String "034"%char EmptyString.
Definition quoted (s : string) : string := dquote ++ s ++ dquote.

(** ToString, as a template literal [`${v}`] applies it. *)
Definition toString (v : value) : string :=
  match v with
  | VUndefined => "undefined"
  | VNull => "null"
  | VBool true => "true"
  | VBool false => "false"
  | VNum text => text
  | VStr s => s
  | VObj _ text => text
  end.

(** Thrown values. *)
Inductive error : Type :=
| TypeError (message : string)
| Error (message : string).

(** The outcome of running a function body: a returned value or a throw.
    The same type is the state of a settled promise. *)
Inductive result (A : Type) : Type :=
| Ok (a : A)
| Throw (e : error).
Arguments Ok {A} a.
Arguments Throw {A} e.

Definition bind {A B} (r : result A) (k : A -> result B) : result B :=
  match r with
  | Ok a => k a
  | Throw e => Throw e
  end.

(** [xs.map(f)] where [f] may throw: elements are visited left to right and
    the first throw ends the loop. *)
Fixpoint mapM {A B} (f : A -> result B) (xs : list A) : result (list B) :=
  match xs with
  | [] => Ok []
  | x :: xs' => bind (f x) (fun y => bind (mapM f xs') (fun ys => Ok (y :: ys)))
  end.

(** An array whose elements were already computed in order. *)
Fixpoint sequence {A} (rs : list (result A)) : result (list A) :=
  match rs with
  | [] => Ok []
  | r :: rs' => bind r (fun y => bind (sequence rs') (fun ys => Ok (y :: ys)))
  end.

(** What V8 says when a property of [undefined] is read. *)
Definition undefinedRead (prop : string) : error :=
  TypeError ("Cannot read properties of undefined (reading '" ++ prop ++ "')").

End Js.
Import Js.

Declare Scope js_scope.
Notation "x <- r ;; k" := (bind r (fun x => k))
  (at level 61, r at next level, right associativity) : js_scope.
Local Open Scope js_scope.

(** ** The nunjucks syntax tree *)

Module Nunjucks.

(** The node classes this code tells apart.  [args] of a call is a NodeList
    in nunjucks; it is kept as the list of its children.  [extName] of a
    call-extension node is the extension's [__name] or, without one, the
    extension object itself; its [contentArgs] is a plain array, which the
    traversal does not enter, and is left out.  [Other] is any remaining
    class, with its node-valued fields in field order.  A node of a subclass
    that [instanceof] does not tell from its parent here is written with the
    parent's constructor (TemplateData, which extends Literal, as
    [Literal]). *)
Inductive node : Type :=
| NodeList (children : list node)
| Literal (value : value)
| Symbol (value : string)
| Add (left right : node)
| FunCall (name : node) (args : list node)
| Filter (name : node) (args : list node)
| CallExtension (extName : value) (args : list node)
| Extends (template : node)
| Include (template : node)
| Import (template target : node)
| FromImport (template names : node)
| Other (fields : list node).

(** Constructors that [instanceof] is asked about. *)
Inductive nodeType : Type :=
| TAdd | TLiteral | TSymbol | TFunCall | TFilter | TCallExtension
| TExtends | TInclude | TImport | TFromImport.

(** [n instanceof t]; [Filter] extends [FunCall]. *)
Definition instanceOf (n : node) (t : nodeType) : bool :=
  match n, t with
  | Add _ _, TAdd => true
  | Literal _, TLiteral => true
  | Symbol _, TSymbol => true
  | FunCall _ _, TFunCall => true
  | Filter _ _, TFunCall => true
  | Filter _ _, TFilter => true
  | CallExtension _ _, TCallExtension => true
  | Extends _, TExtends => true
  | Include _, TInclude => true
  | Import _ _, TImport => true
  | FromImport _ _, TFromImport => true
  | _, _ => false
  end.

(** [n.value]: only the two [Value] classes have the field. *)
Definition valueOf (n : node) : value :=
  match n with
  | Literal v => v
  | Symbol s => VStr s
  | _ => VUndefined
  end.

(** The node-valued fields of a node, in field order (the children of a
    NodeList). *)
Definition fieldsOf (n : node) : list node :=
  match n with
  | NodeList cs => cs
  | Literal _ | Symbol _ => []
  | Add l r => [l; r]
  | FunCall f args | Filter f args => f :: args
  | CallExtension _ args => args
  | Extends t | Include t => [t]
  | Import t x | FromImport t x => [t; x]
  | Other fs => fs
  end.

(** [traverseAndCheck] of nunjucks applied to each field: a field that is
    an instance of the type is pushed, then its own fields are searched. *)
Fixpoint traverseAndCheck (t : nodeType) (n : node) : list node :=
  let below :=
    match n with
    | NodeList cs | Other cs | CallExtension _ cs => flat_map (traverseAndCheck t) cs
    | Literal _ | Symbol _ => []
    | Add l r | Import l r | FromImport l r =>
        (traverseAndCheck t l ++ traverseAndCheck t r)%list
    | FunCall f args | Filter f args =>
        (traverseAndCheck t f ++ flat_map (traverseAndCheck t) args)%list
    | Extends x | Include x => traverseAndCheck t x
    end in
  if instanceOf n t then n :: below else below.

(** [n.findAll(t)]: the descendants of [n] of class [t], parents before
    children and siblings left to right. *)
Definition findAll (t : nodeType) (n : node) : list node :=
  flat_map (traverseAndCheck t) (fieldsOf n).

End Nunjucks.
Import Nunjucks.

(** ** [src/precompile/with-dependencies.js]: the expression evaluator *)

(** The callback [getAddNodeValue] maps over [[node.left, node.right]];
    [nested] is the value of the recursive call on the operand. *)
Definition addOperand (operand : node) (nested : result string) : result string :=
  if instanceOf operand TAdd then nested
  else if instanceOf operand TLiteral then Ok (quoted (toString (valueOf operand)))
  else if instanceOf operand TSymbol then Ok (toString (valueOf operand))
  else Throw (TypeError "Unsupported node signature").

Fixpoint getAddNodeValue (n : node) : result string :=
  match n with
  | Add l r =>
      parts <- sequence [addOperand l (getAddNodeValue l);
                         addOperand r (getAddNodeValue r)] ;;
      Ok (String.concat " + " parts)
  | _ => Throw (TypeError "Wrong node type")
  end.

(** [getGlobalFnValue] is given the nodes [findAll(FunCall)] finds; on any
    other node [node.name] is undefined and reading [.value] throws. *)
Definition getGlobalFnValue (n : node) : result value :=
  match n with
  | FunCall name args | Filter name args =>
      if negb (strictEq (valueOf name) (VStr "static")) then Ok VUndefined
      else
        match args with
        | [] => Throw (undefinedRead "value")
        | asset :: _ =>
            if instanceOf asset TAdd
            then s <- getAddNodeValue asset ;; Ok (VStr s)
            else Ok (valueOf asset)
        end
  | _ => Throw (undefinedRead "value")
  end.

(** ** Arrays and promises *)

Module JsArray.

(** [list.indexOf(item)]: the first index holding a value [===] to [item],
    or [-1]. *)
Fixpoint indexOfFrom (item : value) (i : Z) (list : list value) : Z :=
  match list with
  | [] => (-1)%Z
  | x :: rest => if strictEq x item then i else indexOfFrom item (i + 1)%Z rest
  end.

Definition indexOf (list : list value) (item : value) : Z :=
  indexOfFrom item 0%Z list.

(** [array.filter(f)]; the callback is given the element, its index and
    the whole array. *)
Fixpoint filterFrom {A} (f : A -> Z -> list A -> bool) (array : list A)
    (i : Z) (rest : list A) : list A :=
  match rest with
  | [] => []
  | x :: rest' =>
      if f x i array then x :: filterFrom f array (i + 1)%Z rest'
      else filterFrom f array (i + 1)%Z rest'
  end.

Definition filter {A} (f : A -> Z -> list A -> bool) (array : list A) : list A :=
  filterFrom f array 0%Z array.

(** [[].concat(x)]: an array argument is spread, anything else becomes the
    only element. *)
Inductive oneOrMany : Type :=
| One (s : string)
| Many (l : list string).

Definition concatOntoEmpty (x : oneOrMany) : list string :=
  match x with
  | One s => [s]
  | Many l => l
  end.

End JsArray.

Module Promise.

(** A settled promise: fulfilled with a value or rejected with a reason. *)
Definition promise (A : Type) : Type := result A.

(** [p.then(onFulfilled, onRejected)] *)
Definition thenElse {A B} (p : promise A) (onFulfilled : A -> result B)
    (onRejected : error -> result B) : promise B :=
  match p with
  | Ok a => onFulfilled a
  | Throw e => onRejected e
  end.

(** [Promise.all(ps)] fulfils with every value in order when all do, and
    otherwise rejects with the reason of the member that rejected first in
    time, which the list does not determine: any rejected member may be
    the one. *)
Inductive all {A} : list (promise A) -> promise (list A) -> Prop :=
| all_fulfilled (vs : list A) : all (map Ok vs) (Ok vs)
| all_rejected (ps : list (promise A)) (e : error) :
    In (Throw e) ps -> all ps (Throw e).

End Promise.

(** ** [src/precompile/with-dependencies.js]: assets and templates *)

Definition isUnique (item : value) (i : Z) (list : list value) : bool :=
  (JsArray.indexOf list item =? i)%Z.

(** Modelled from the spec: [getNodesValues] of [./get-nodes-values] is not
    under src.  It gathers the value [getValue] gives for every node of the
    class and leaves out the nodes that have none: "a function call is a
    candidate asset reference only if its callee name equals the reserved
    name". *)
Definition getNodesValues (nodes : node) (t : nodeType)
    (getValue : node -> result value) : result (list value) :=
  values <- mapM getValue (findAll t nodes) ;;
  Ok (List.filter (fun v => negb (strictEq v VUndefined)) values).

(** The first statement of [getAssets]: the asset list that is handed to
    path resolution. *)
Definition assetValues (nodes : node) : result (list value) :=
  values <- getNodesValues nodes TFunCall getGlobalFnValue ;;
  Ok (JsArray.filter isUnique values).

(** [node.template.value], the callback the collector maps over the nodes
    it found; a node without [template] has nothing to read [.value] of. *)
Definition templateValue (n : node) : result value :=
  match n with
  | Extends t | Include t | Import t _ | FromImport t _ => Ok (valueOf t)
  | _ => Throw (undefinedRead "value")
  end.

(** Modelled from the spec: [getDependenciesTemplates] of
    [../get-dependencies-templates] is not under src.  It returns the
    template name of every extends, include, import and from-import node,
    as the collector [getDependencies] below does on a parsed source. *)
Definition getDependenciesTemplates (nodes : node) : result (list value) :=
  mapM templateValue
    (findAll TExtends nodes ++ findAll TInclude nodes ++
     findAll TImport nodes ++ findAll TFromImport nodes).

Section Resolution.

(** The file system probe and the platform's path joining. *)
Variable existsOnDisk : string -> bool.
Variable resolvePath : string -> value -> string.

(** Modelled from the spec: [getPossiblePaths] of [../get-possible-paths]
    is not under src.  It "expands each logical name against every search
    directory (in order) to build the candidate list per name". *)
Definition getPossiblePaths (names : list value) (searchDirectories : list string)
    : list (value * list string) :=
  map (fun name => (name, map (fun dir => resolvePath dir name) searchDirectories))
      names.

(** Modelled from the spec: [getFirstExistedPath] of
    [../get-first-existed-path] is not under src.  It "tries each candidate
    for existence in order; succeeds with the first that exists; fails
    with NotFoundError if none exist".  Its callers drop the reason of the
    failure. *)
Definition getFirstExistedPath (paths : list string) : Promise.promise string :=
  match find existsOnDisk paths with
  | Some p => Ok p
  | None => Throw (Error "NotFoundError")
  end.

(** The callbacks mapped over [possiblePaths]; [kind] is the word the
    message starts with. *)
Definition resolveAs (kind : string) (entry : value * list string)
    : Promise.promise (value * string) :=
  let '(path, paths) := entry in
  Promise.thenElse (getFirstExistedPath paths)
    (fun importPath => Ok (path, importPath))
    (fun _ => Throw (Error (kind ++ " " ++ quoted (toString path) ++ " not found"))).

(** The promises handed to [Promise.all]. *)
Definition getDependenciesImports (nodes : node) (searchPaths : list string)
    : result (list (Promise.promise (value * string))) :=
  templateDeps <- getDependenciesTemplates nodes ;;
  Ok (map (resolveAs "Template") (getPossiblePaths templateDeps searchPaths)).

Definition getAssets (nodes : node) (searchAssets : JsArray.oneOrMany)
    : result (list (Promise.promise (value * string))) :=
  assets <- assetValues nodes ;;
  Ok (map (resolveAs "Asset")
          (getPossiblePaths assets (JsArray.concatOntoEmpty searchAssets))).

End Resolution.

(** ** [src/precompile/with-dependencies.js]: usages *)

(** Modelled from the spec: [getUsagesOf] of [./get-usages-of] is not under
    src.  "For a given node type, traverse all nodes of that type, and for
    each declared candidate item, test a provided predicate against each
    found node; retain the candidate if any match exists"; the order is the
    declared order. *)
Definition getUsagesOf {A} (t : nodeType) (nodes : node) (declared : list A)
    (callback : node -> A -> bool) : list A :=
  List.filter (fun item => existsb (fun n => callback n item) (findAll t nodes))
    declared.

(** An addon descriptor [[name, importPath, instance]]. *)
Definition addon : Type := string * string * value.

(** [node.extName] *)
Definition extNameOf (n : node) : value :=
  match n with
  | CallExtension e _ => e
  | _ => VUndefined
  end.

(** [node.name] of a call or filter node. *)
Definition nameOf (n : node) : option node :=
  match n with
  | FunCall f _ | Filter f _ => Some f
  | _ => None
  end.

(** The callee's [.value]; a node without [name] has none to compare. *)
Definition nameValueOf (n : node) : value :=
  match nameOf n with
  | Some f => valueOf f
  | None => VUndefined
  end.

Definition getTemplateGlobals (nodes : node) (globals : list (string * value))
    : list (string * value) :=
  getUsagesOf TFunCall nodes globals
    (fun n '(name, _) => strictEq (nameValueOf n) (VStr name)).

(** The [extensions] field of the manifest. *)
Definition usedExtensions (nodes : node) (extensionsInstances : list addon)
    : list addon :=
  getUsagesOf TCallExtension nodes extensionsInstances
    (fun n '(name, _, instance) =>
       strictEq (VStr name) (extNameOf n) || strictEq instance (extNameOf n)).

(** The [filters] field of the manifest. *)
Definition usedFilters (nodes : node) (filtersInstances : list addon)
    : list addon :=
  getUsagesOf TFilter nodes filtersInstances
    (fun n '(filterName, _, _) => strictEq (VStr filterName) (nameValueOf n)).

(** ** The template-dependency collector *)

Section Collector.

(** [nunjucks.parser.parse] *)
Variable parse : string -> result node.

Definition getDependencies (source : string) : result (list value) :=
  nodes <- parse source ;;
  let extendsNodes := findAll TExtends nodes in
  let includeNodes := findAll TInclude nodes in
  let importNodes := findAll TImport nodes in
  let fromImportNodes := findAll TFromImport nodes in
  mapM templateValue
    (extendsNodes ++ includeNodes ++ importNodes ++ fromImportNodes).

End Collector.

(** ** Strings and regular expressions

    A string is a [string] of the Standard Library: its characters are
    bytes, where those of JavaScript are UTF-16 code units. *)

Module JsString.

(** [s.startsWith(p)] *)
Definition startsWith (s p : string) : bool := String.prefix p s.

(** [s] without its first [n] characters. *)
Fixpoint drop (n : nat) (s : string) : string :=
  match n, s with
  | O, _ => s
  | S _, EmptyString => EmptyString
  | S n', String _ s' => drop n' s'
  end.

(** The text before and after the leftmost occurrence of [sep] in [s]. *)
Fixpoint breakOn (sep s : string) : option (string * string) :=
  if String.prefix sep s then Some (EmptyString, drop (String.length sep) s)
  else
    match s with
    | EmptyString => None
    | String c s' =>
        match breakOn sep s' with
        | Some (before, after) => Some (String c before, after)
        | None => None
        end
    end.

(** [s.includes(sep)] *)
Definition includes (s sep : string) : bool :=
  match breakOn sep s with
  | Some _ => true
  | None => false
  end.

(** [s.split(sep)] for a separator that is not empty: cut at each
    occurrence, leftmost first, occurrences not overlapping.  [fuel] bounds
    the number of cuts; the length of [s] is always enough. *)
Fixpoint splitFuel (fuel : nat) (s sep : string) : list string :=
  match fuel with
  | O => [s]
  | S fuel' =>
      match breakOn sep s with
      | Some (before, after) => before :: splitFuel fuel' after sep
      | None => [s]
      end
  end.

Definition split (s sep : string) : list string :=
  splitFuel (String.length s) s sep.

(** What a replacer function is called with after the matched text: the
    captures, then the offset of the match, then the whole subject. *)
Inductive replacerArg : Type :=
| Capture (s : string)
| Offset (n : nat)
| Subject (s : string).

(** ToString of an argument, as [join] applies it. *)
Definition argToString (a : replacerArg) : string :=
  match a with
  | Capture s | Subject s => s
  | Offset n => NilEmpty.string_of_uint (Nat.to_uint n)
  end.

End JsString.

Module RegExp.

(** The patterns the rewriter builds: a sequence of literal characters and
    of capturing groups [([^+]+)]. *)
Inductive item : Type :=
| Char (c : ascii)
| NotPlusGroup.

Definition regexp : Type := list item.

(** SyntaxCharacter of the pattern grammar. *)
Definition isSyntaxChar (c : ascii) : bool :=
  existsb (Ascii.eqb c) (list_ascii_of_string "^$\.*+?()[]{}|").

Definition consItem (i : item) (r : option regexp) : option regexp :=
  option_map (cons i) r.

(** [new RegExp(source, 'g')] for a source in that fragment: a backslash
    before a syntax character is that character, [([^+]+)] is the group,
    any other character that is not a syntax character is itself.  A
    source outside the fragment has no model ([None]). *)
Fixpoint create (source : string) : option regexp :=
  match source with
  | EmptyString => Some []
  | String c rest =>
      if Ascii.eqb c "\" then
        match rest with
        | String d rest' =>
            if isSyntaxChar d then consItem (Char d) (create rest') else None
        | EmptyString => None
        end
      else if Ascii.eqb c "(" then
        match rest with
        | String c1 (String c2 (String c3 (String c4 (String c5 (String c6 rest'))))) =>
            if String.eqb (String c1 (String c2 (String c3 (String c4
                            (String c5 (String c6 EmptyString)))))) "[^+]+)"
            then consItem NotPlusGroup (create rest')
            else None
        | _ => None
        end
      else if isSyntaxChar c then None
      else consItem (Char c) (create rest)
  end.

(** The group [([^+]+)] at the start of [s], with [taken] already in it:
    it first takes as many characters other than [+] as there are and
    gives them back one at a time, never all of them, until the rest of the
    pattern, [continue], matches. *)
Fixpoint matchGroup (continue : string -> option (list string * string))
    (taken s : string) : option (list string * string) :=
  match s with
  | EmptyString => None
  | String d s' =>
      if Ascii.eqb d "+" then None
      else
        let taken' := (taken ++ String d EmptyString)%string in
        match matchGroup continue taken' s' with
        | Some r => Some r
        | None =>
            match continue s' with
            | Some (captures, rest) => Some (taken' :: captures, rest)
            | None => None
            end
        end
  end.

(** Matching at the start of [s], as the backtracking matcher does: the
    captures and the text after the match. *)
Fixpoint matchHere (re : regexp) (s : string) : option (list string * string) :=
  match re with
  | [] => Some ([], s)
  | Char c :: re' =>
      match s with
      | String d s' => if Ascii.eqb c d then matchHere re' s' else None
      | EmptyString => None
      end
  | NotPlusGroup :: re' => matchGroup (matchHere re') EmptyString s
  end.

(** Whether the pattern matches somewhere in [s]. *)
Fixpoint test (re : regexp) (s : string) : bool :=
  match matchHere re s with
  | Some _ => true
  | None =>
      match s with
      | EmptyString => false
      | String _ s' => test re s'
      end
  end.

End RegExp.

Module JsReplace.
Import JsString RegExp.

(** [subject.replace(re, fn)] with the [g] flag, from the text [s] left at
    [offset]; [skip] counts the characters of the last match still to pass.
    After an empty match the next character is copied. *)
Fixpoint replaceFrom (re : regexp) (fn : string -> list replacerArg -> string)
    (subject : string) (offset skip : nat) (s : string) {struct s} : string :=
  match skip with
  | S skip' =>
      match s with
      | EmptyString => EmptyString
      | String _ s' => replaceFrom re fn subject (S offset) skip' s'
      end
  | O =>
      match matchHere re s with
      | Some (captures, rest) =>
          let n := String.length s - String.length rest in
          (fn (substring 0 n s)
              (map Capture captures ++ [Offset offset; Subject subject])%list
           ++ match s with
             | EmptyString => EmptyString
             | String c s' =>
                 if Nat.eqb n 0
                 then String c (replaceFrom re fn subject (S offset) 0 s')
                 else replaceFrom re fn subject (S offset) (n - 1) s'
             end)%string
      | None =>
          match s with
          | EmptyString => EmptyString
          | String c s' => String c (replaceFrom re fn subject (S offset) 0 s')
          end
      end
  end.

Definition replace (subject : string) (re : regexp)
    (fn : string -> list replacerArg -> string) : string :=
  replaceFrom re fn subject 0 0 subject.

End JsReplace.

(** ** The asset rewriter *)

(** Modelled from the spec: [toRegExpSource] of [../to-regexp-source] is not
    under src.  It makes a pattern source that matches the text verbatim,
    a backslash going before every syntax character. *)
Fixpoint toRegExpSource (s : string) : string :=
  match s with
  | EmptyString => EmptyString
  | String c s' =>
      if RegExp.isSyntaxChar c then String "\" (String c (toRegExpSource s'))
      else String c (toRegExpSource s')
  end.

(** Modelled from the spec: [isDynamicPath] of [./assets] is not under src.
    A dynamic path is an "ordered sequence of literal fragments and
    variable placeholders joined by concatenation", the text [getAddNodeValue]
    renders: it has the joining [" + "] in it. *)
Definition isDynamicPath (path : string) : bool :=
  JsString.includes path " + ".

(** Modelled from the spec: [getArgs] of [./assets] is not under src.  The
    arguments of a dynamic path are its variable placeholders, the joined
    fragments that are not quoted literals; a static path is replaced "with
    zero extra arguments". *)
Definition getArgs (path : string) : list string :=
  if isDynamicPath path then
    List.filter (fun part => negb (JsString.startsWith part dquote))
      (JsString.split path " + ")
  else [].

(** The function [getAssetReplaceRegExp] maps over the split source. *)
Definition partSource (part : string) : string :=
  if negb (JsString.startsWith part dquote) then "([^+]+)" else part.

Definition getAssetReplaceRegExp (path : string) : option RegExp.regexp :=
  let isDynamicAsset := isDynamicPath path in
  let reSource :=
    if isDynamicAsset then
      String.concat " \+ "
        (map partSource (JsString.split (toRegExpSource path) " \+ "))
    else toRegExpSource (quoted path) in
  RegExp.create reSource.

(** The replacer function of [replaceAssetPath]. *)
Definition assetReplacer (uuid : string) (argsCount : nat)
    (matched : string) (args : list JsString.replacerArg) : string :=
  let staticArgs := firstn argsCount args in
  String.concat ","
    (("_templateAssets['" ++ uuid ++ "']")%string :: map JsString.argToString staticArgs).

Definition replaceAssetPath (precompiled : string) (asset : string * string)
    : option string :=
  let '(uuid, path) := asset in
  match getAssetReplaceRegExp path with
  | Some re =>
      let argsCount := List.length (getArgs path) in
      Some (JsReplace.replace precompiled re (assetReplacer uuid argsCount))
  | None => None
  end.

Definition replaceAssets (precompiled : string) (assets : list (string * string))
    : option string :=
  if Nat.eqb (List.length assets) 0 then Some precompiled
  else
    fold_left
      (fun precompiled asset =>
         match precompiled with
         | Some text => replaceAssetPath text asset
         | None => None
         end)
      assets (Some precompiled).

(** ** Vocabulary of the specification *)

(** A fragment of a dynamic asset path: "either a quoted literal string or
    a bare variable name". *)
Inductive fragment : Type :=
| FLiteral (text : string)
| FVariable (name : string).

(** "Literals double-quoted, variables unquoted." *)
Definition renderFragment (f : fragment) : string :=
  match f with
  | FLiteral text => quoted text
  | FVariable name => name
  end.

(** "Render as a textual expression joining fragments with [" + "]." *)
Definition renderFragments (fs : list fragment) : string :=
  String.concat " + " (map renderFragment fs).

(** The ordered fragments of a concatenation whose leaves are string
    literals and symbols only; [None] when another leaf occurs. *)
Fixpoint fragmentsOf (n : node) : option (list fragment) :=
  match n with
  | Add l r =>
      match fragmentsOf l, fragmentsOf r with
      | Some fl, Some fr => Some (fl ++ fr)%list
      | _, _ => None
      end
  | Literal (VStr s) => Some [FLiteral s]
  | Symbol x => Some [FVariable x]
  | _ => None
  end.

(** The operands of a concatenation chain, left to right. *)
Fixpoint chainOperands (n : node) : list node :=
  match n with
  | Add l r => (chainOperands l ++ chainOperands r)%list
  | _ => [n]
  end.

(** An operand the evaluator has a rendering for. *)
Definition isLiteralOrSymbol (n : node) : bool :=
  instanceOf n TLiteral || instanceOf n TSymbol.

(** A node and everything below it in document order: a node comes before
    its fields, and fields come in their order. *)
Fixpoint documentOrder (n : node) : list node :=
  n :: match n with
       | NodeList cs | Other cs | CallExtension _ cs => flat_map documentOrder cs
       | Literal _ | Symbol _ => []
       | Add l r | Import l r | FromImport l r =>
           (documentOrder l ++ documentOrder r)%list
       | FunCall f args | Filter f args =>
           (documentOrder f ++ flat_map documentOrder args)%list
       | Extends x | Include x => documentOrder x
       end.

(** The nodes of a tree below its root, in document order. *)
Definition descendants (n : node) : list node :=
  flat_map documentOrder (fieldsOf n).

(** "Extends, include, import, or from-import directives." *)
Definition isInclusionDirective (n : node) : bool :=
  instanceOf n TExtends || instanceOf n TInclude
  || instanceOf n TImport || instanceOf n TFromImport.

(** The template name a directive carries. *)
Definition templateName (n : node) : value :=
  match n with
  | Extends t | Include t | Import t _ | FromImport t _ => valueOf t
  | _ => VUndefined
  end.

(** "The literal template-name string of each occurrence, in document order,
    duplicates preserved." *)
Definition referencesInDocumentOrder (nodes : node) : list value :=
  map templateName (List.filter isInclusionDirective (descendants nodes)).

(** The directives of one class, in document order. *)
Definition referencesOfClass (t : nodeType) (nodes : node) : list value :=
  map templateName (List.filter (fun n => instanceOf n t) (descendants nodes)).

(** A list with only the first occurrence of each value kept; [seen] holds
    the values met so far. *)
Fixpoint firstOccurrencesAfter (seen values : list value) : list value :=
  match values with
  | [] => []
  | v :: rest =>
      if existsb (fun s => strictEq s v) seen
      then firstOccurrencesAfter seen rest
      else v :: firstOccurrencesAfter (seen ++ [v]) rest
  end.

Definition firstOccurrences (values : list value) : list value :=
  firstOccurrencesAfter [] values.

(** A call site matches a descriptor "by the descriptor's declared name or
    by its live instance". *)
Definition extensionMatches (descriptor : addon) (n : node) : Prop :=
  let '(name, _, instance) := descriptor in
  extNameOf n = VStr name \/ extNameOf n = instance.

(** The error a failed resolution is turned into: its message "names the
    missing logical reference and whether it was a template or asset". *)
Definition notFound (kind : string) (path : value) : error :=
  Error (kind ++ " " ++ quoted (toString path) ++ " not found").

(** The pattern of one fragment of a dynamic path: a quoted literal is
    matched verbatim, character by character, anything else is a wildcard
    capturing one argument. *)
Definition fragmentPattern (part : string) : RegExp.regexp :=
  if JsString.startsWith part dquote
  then map RegExp.Char (list_ascii_of_string part)
  else [RegExp.NotPlusGroup].

(** The patterns of the fragments with the joining [" + "] between them. *)
Fixpoint joinPatterns (patterns : list RegExp.regexp) : RegExp.regexp :=
  match patterns with
  | [] => []
  | [p] => p
  | p :: rest =>
      (p ++ map RegExp.Char (list_ascii_of_string " + ") ++ joinPatterns rest)%list
  end.

Definition dynamicPattern (path : string) : RegExp.regexp :=
  joinPatterns (map fragmentPattern (JsString.split path " + ")).

Definition staticPattern (path : string) : RegExp.regexp :=
  map RegExp.Char (list_ascii_of_string (quoted path)).


(** The text a pattern matches when its groups capture [captures]; [None]
    unless there is one capture for each group. *)
Fixpoint instantiate (re : RegExp.regexp) (captures : list string) : option string :=
  match re with
  | [] => match captures with [] => Some EmptyString | _ :: _ => None end
  | RegExp.Char c :: re' => option_map (String c) (instantiate re' captures)
  | RegExp.NotPlusGroup :: re' =>
      match captures with
      | capture :: captures' => option_map (append capture) (instantiate re' captures')
      | [] => None
      end
  end.

(** The number of capturing groups of a pattern. *)
Fixpoint groupCount (re : RegExp.regexp) : nat :=
  match re with
  | [] => 0
  | RegExp.Char _ :: re' => groupCount re'
  | RegExp.NotPlusGroup :: re' => S (groupCount re')
  end.

(** A captured argument: a text that is not empty and has no [+] in it. *)
Definition isArgument (capture : string) : Prop :=
  capture <> EmptyString /\ ~ In "+"%char (list_ascii_of_string capture).

(** The lookup into the runtime table. *)
Definition lookupExpression (uuid : string) : string :=
  "_templateAssets['" ++ uuid ++ "']".



(** Whether the replacement pattern of an asset entry matches somewhere in
    a text. *)
Definition matchesSomewhere (asset : string * string) (text : string) : bool :=
  match getAssetReplaceRegExp (snd asset) with
  | Some re => RegExp.test re text
  | None => false
  end.

(** Both sides of a cut, escaped. *)
Definition escapeBoth (cut : string * string) : string * string :=
  (toRegExpSource (fst cut), toRegExpSource (snd cut)).

(** The loop of [replaceAssets]. *)
Definition replaceEach (assets : list (string * string)) (start : option string)
    : option string :=
  fold_left
    (fun precompiled asset =>
       match precompiled with
       | Some text => replaceAssetPath text asset
       | None => None
       end)
    assets start.


(** ** [src/output/get-extensions.js] *)

Section Extensions.

(** The loader context, the two constants of [../constants] and the helpers
    the module imports: [toVar], [getImportStr], [getModuleOutput] and
    [stringifyRequest] of loader-utils. *)
Variable loaderContext : Type.
Variable IMPORTS_PREFIX : string.
Variable TEMPLATE_DEPENDENCIES : string.
Variable toVar : string -> string.
Variable getImportStr : string -> string -> string.
Variable stringifyRequest : loaderContext -> string -> string.
Variable getModuleOutput : string -> string.

(** A line feed, and the indentation of the two depths of the template
    literal. *)
Definition newline : string := String "010"%char EmptyString.
Definition indent12 : string := "            ".
Definition indent16 : string := "                ".

(** The callback [imports] maps over the extensions; it reads the name and
    the import path of a descriptor. *)
Definition extensionImport (context : loaderContext) (extension : addon) : string :=
  let '(name, importPath, _) := extension in
  let importVar := toVar (IMPORTS_PREFIX ++ "_ext_" ++ name) in
  let importStatement :=
    getImportStr (stringifyRequest context importPath) importVar in
  newline ++ indent12 ++ importStatement ++
  newline ++ indent12 ++ TEMPLATE_DEPENDENCIES ++ ".extensions['" ++ name ++ "'] = {" ++
  newline ++ indent16 ++ "module: " ++ getModuleOutput importVar ++
  newline ++ indent12 ++ "};".

(** The object [getExtensions] returns. *)
Record extensionsOutput : Type := { imports : loaderContext -> string }.

Definition getExtensions (extensions : list addon) : extensionsOutput :=
  {| imports := fun context =>
       String.concat "" (map (extensionImport context) extensions) |}.

End Extensions.

(** The text the evaluator has for an operand that is a literal or a
    symbol. *)
Definition operandText (n : node) : string :=
  match n with
  | Literal v => quoted (toString v)
  | Symbol name => name
  | _ => EmptyString
  end.

(** [node.template] *)
Definition templateOf (n : node) : option node :=
  match n with
  | Extends t | Include t | Import t _ | FromImport t _ => Some t
  | _ => None
  end.

(** An operand that is a string literal or a symbol. *)
Definition isStringLiteralOrSymbol (n : node) : bool :=
  match n with
  | Literal (VStr _) | Symbol _ => true
  | _ => false
  end.









(** * Properties *)

(** ** Strings *)

Section StringFacts.

Lemma append_assoc (a b c : string) : (a ++ b) ++ c = a ++ b ++ c.
Proof. induction a as [|x a IH]; simpl; [reflexivity | now rewrite IH]. Qed.

Lemma append_nil_r (a : string) : a ++ "" = a.
Proof. induction a as [|x a IH]; simpl; [reflexivity | now rewrite IH]. Qed.

Lemma length_append (a b : string) :
  String.length (a ++ b) = String.length a + String.length b.
Proof. induction a as [|x a IH]; simpl; [reflexivity | now rewrite IH]. Qed.

End StringFacts.

(** ** The expression evaluator *)

Section Evaluator.

Lemma concat_app_nonempty (sep : string) (xs ys : list string) :
  xs <> [] -> ys <> [] ->
  String.concat sep (xs ++ ys) =
  String.concat sep xs ++ sep ++ String.concat sep ys.
Proof.
  intros Hx Hy. induction xs as [|x xs IH]; [congruence|].
  destruct xs as [|x' xs].
  - destruct ys as [|y ys]; [congruence|]. reflexivity.
  - change (String.concat sep ((x :: x' :: xs) ++ ys)%list)
      with (x ++ sep ++ String.concat sep ((x' :: xs) ++ ys)%list).
    rewrite IH by discriminate.
    change (String.concat sep (x :: x' :: xs))
      with (x ++ sep ++ String.concat sep (x' :: xs)).
    now rewrite !append_assoc.
Qed.

(** The invariant of the recursion: what an operand contributes to the
    joined text of its parent. *)
Lemma addOperand_fragments (n : node) :
  forall fs, fragmentsOf n = Some fs ->
             fs <> [] /\ addOperand n (getAddNodeValue n) = Ok (renderFragments fs).
Proof.
  induction n; intros fs Hfs; simpl in Hfs; try discriminate.
  - destruct value0; try discriminate. injection Hfs as <-.
    split; [discriminate | reflexivity].
  - injection Hfs as <-. split; [discriminate | reflexivity].
  - destruct (fragmentsOf n1) as [fl|] eqn:El; [|discriminate].
    destruct (fragmentsOf n2) as [fr|] eqn:Er; [|discriminate].
    injection Hfs as <-.
    destruct (IHn1 fl eq_refl) as [Hl Vl], (IHn2 fr eq_refl) as [Hr Vr].
    split.
    + destruct fl; [congruence | discriminate].
    + unfold addOperand at 1. simpl instanceOf. cbv iota.
      simpl getAddNodeValue. rewrite Vl, Vr. simpl.
      unfold renderFragments. rewrite map_app.
      rewrite concat_app_nonempty.
      * reflexivity.
      * destruct fl; [congruence | discriminate].
      * destruct fr; [congruence | discriminate].
Qed.

(** What [getAddNodeValue] does on any operand of a chain. *)
Lemma addOperand_supported (n : node) :
  Forall (fun m => isLiteralOrSymbol m = true) (chainOperands n) ->
  exists s, addOperand n (getAddNodeValue n) = Ok s.
Proof.
  induction n; simpl; intros H;
    try (apply Forall_inv in H; discriminate H);
    try (eexists; reflexivity).
  apply Forall_app in H as [Hl Hr].
  destruct (IHn1 Hl) as [a Ha], (IHn2 Hr) as [b Hb].
  unfold addOperand at 1. simpl. rewrite Ha, Hb. simpl. eexists; reflexivity.
Qed.

Lemma addOperand_unsupported (n : node) :
  Exists (fun m => isLiteralOrSymbol m = false) (chainOperands n) ->
  addOperand n (getAddNodeValue n) = Throw (TypeError "Unsupported node signature").
Proof.
  induction n; simpl; intros H;
    try (apply Exists_cons in H as [H|H]; [discriminate H | inversion H]);
    try reflexivity.
  unfold addOperand at 1. simpl.
  destruct (Forall_Exists_dec (fun m => isLiteralOrSymbol m = true)
              (fun m => bool_dec (isLiteralOrSymbol m) true) (chainOperands n1))
    as [Hl|Hl].
  - destruct (addOperand_supported n1 Hl) as [a Ha]. rewrite Ha. simpl.
    apply Exists_app in H as [H|H].
    + exfalso. apply Exists_exists in H as (m & Hm & Hf).
      rewrite Forall_forall in Hl. specialize (Hl m Hm). congruence.
    + now rewrite (IHn2 H).
  - rewrite IHn1; [reflexivity|].
    apply Exists_exists in Hl as (m & Hm & Hf). apply Exists_exists.
    exists m. split; [assumption|]. now destruct (isLiteralOrSymbol m).
Qed.

End Evaluator.

(** C1. For a concatenation whose leaves are string literals and symbols
    only, [getAddNodeValue] returns its fragments in order, joined with
    [" + "], literals in double quotes and symbols bare; the argument of
    [static("img/" + name + ".png")] is rendered ["img/" + name + ".png"]. *)
Theorem getAddNodeValue_renders_fragments :
  (forall (l r : node) (fs : list fragment),
      fragmentsOf (Add l r) = Some fs ->
      getAddNodeValue (Add l r) = Ok (renderFragments fs))
  /\ getGlobalFnValue
       (FunCall (Symbol "static")
          [Add (Add (Literal (VStr "img/")) (Symbol "name")) (Literal (VStr ".png"))])
     = Ok (VStr (quoted "img/" ++ " + name + " ++ quoted ".png")).
Proof.
  split; [|reflexivity].
  intros l r fs H.
  destruct (addOperand_fragments (Add l r) fs H) as [_ Hv]. exact Hv.
Qed.

Lemma getAddNodeValue_renders_fragments_witness :
  getAddNodeValue (Add (Symbol "dir") (Literal (VStr "/logo.svg")))
  = Ok (renderFragments [FVariable "dir"; FLiteral "/logo.svg"]).
Proof.
  apply (proj1 getAddNodeValue_renders_fragments). reflexivity.
Defined.

(** C7, as the code has it.  For a concatenation node, which is what
    [getAddNodeValue] is passed, the evaluation throws a TypeError exactly
    when some operand of the chain is neither a nested concatenation, a
    literal of any kind (a string, a number, a boolean, null) nor a symbol,
    and returns a text otherwise. *)
Theorem getAddNodeValue_throws_iff_unsupported (l r : node) :
  ((exists message, getAddNodeValue (Add l r) = Throw (TypeError message))
   <-> Exists (fun m => isLiteralOrSymbol m = false) (chainOperands (Add l r)))
  /\ ((exists text, getAddNodeValue (Add l r) = Ok text)
      <-> Forall (fun m => isLiteralOrSymbol m = true) (chainOperands (Add l r))).
Proof.
  pose proof (addOperand_supported (Add l r)) as Hs.
  pose proof (addOperand_unsupported (Add l r)) as Hu.
  change (addOperand (Add l r) (getAddNodeValue (Add l r)))
    with (getAddNodeValue (Add l r)) in Hs, Hu.
  destruct (Forall_Exists_dec (fun m => isLiteralOrSymbol m = true)
              (fun m => bool_dec (isLiteralOrSymbol m) true)
              (chainOperands (Add l r))) as [Hall|Hex].
  - destruct (Hs Hall) as [s Es]. split; split; intros H.
    + destruct H as [m Hm]. congruence.
    + exfalso. apply Exists_exists in H as (m & Hm & Hf).
      rewrite Forall_forall in Hall. specialize (Hall m Hm). congruence.
    + assumption.
    + eauto.
  - assert (Hex' : Exists (fun m => isLiteralOrSymbol m = false)
                     (chainOperands (Add l r))).
    { apply Exists_exists in Hex as (m & Hm & Hf). apply Exists_exists.
      exists m. split; [assumption|]. now destruct (isLiteralOrSymbol m). }
    specialize (Hu Hex'). split; split; intros H.
    + assumption.
    + eauto.
    + destruct H as [s Es]. congruence.
    + exfalso. apply Exists_exists in Hex' as (m & Hm & Hf).
      rewrite Forall_forall in H. specialize (H m Hm). congruence.
Qed.

(** C7 as stated fails: a literal that is not a string is an operand the
    evaluator renders, so a chain with a node that is neither a nested
    concatenation, a string literal nor a symbol need not be rejected. *)
Lemma getAddNodeValue_renders_null_literal :
  let n := Add (Literal (VStr "a")) (Literal VNull) in
  Exists (fun m => instanceOf m TAdd = false /\ isStringLiteralOrSymbol m = false)
         (chainOperands n)
  /\ getAddNodeValue n = Ok (quoted "a" ++ " + " ++ quoted "null")
  /\ ~ (exists message, getAddNodeValue n = Throw (TypeError message)).
Proof.
  split; [|split].
  - apply Exists_cons_tl, Exists_cons_hd. now split.
  - reflexivity.
  - intros [message H]. discriminate H.
Qed.

(** A node that is not a concatenation is rejected before its operands are
    looked at. *)
Remark getAddNodeValue_wrong_node_type (n : node) :
  instanceOf n TAdd = false -> getAddNodeValue n = Throw (TypeError "Wrong node type").
Proof. destruct n; simpl; intros H; try discriminate; reflexivity. Qed.

(** C10. A call of [static] without arguments makes [getGlobalFnValue]
    throw, reading [.value] of the missing first argument; it is not taken
    as a call without asset value.  So the extraction returns on a [static]
    call only if the call has an argument. *)
Theorem getGlobalFnValue_static_without_arguments (name : node) :
  valueOf name = VStr "static" ->
  (exists message, getGlobalFnValue (FunCall name []) = Throw (TypeError message))
  /\ getGlobalFnValue (FunCall name []) <> Ok VUndefined
  /\ (forall args v, getGlobalFnValue (FunCall name args) = Ok v -> args <> [])
  /\ (exists message,
        assetValues (NodeList [FunCall name []]) = Throw (TypeError message)).
Proof.
  intros Hname.
  assert (E : getGlobalFnValue (FunCall name []) = Throw (undefinedRead "value")).
  { simpl. rewrite Hname. reflexivity. }
  repeat split.
  - eexists. exact E.
  - rewrite E. discriminate.
  - intros args v Hv ->. rewrite E in Hv. discriminate.
  - exists "Cannot read properties of undefined (reading 'value')".
    unfold assetValues, getNodesValues, findAll.
    cbn [fieldsOf flat_map traverseAndCheck instanceOf mapM app].
    rewrite E. reflexivity.
Qed.

Lemma getGlobalFnValue_static_without_arguments_witness :
  exists message,
    getGlobalFnValue (FunCall (Symbol "static") []) = Throw (TypeError message).
Proof.
  apply (getGlobalFnValue_static_without_arguments (Symbol "static")).
  reflexivity.
Defined.

(** ** Tree traversal *)

Section Traversal.

(** Induction on a node with the property known of all its fields. *)
Fixpoint node_fields_ind (P : node -> Prop)
    (step : forall n, Forall P (fieldsOf n) -> P n) (n : node) : P n :=
  let all := fix all (l : list node) : Forall P l :=
    match l with
    | [] => Forall_nil P
    | x :: l' => Forall_cons x (node_fields_ind P step x) (all l')
    end in
  step n
    match n return Forall P (fieldsOf n) with
    | NodeList cs | Other cs | CallExtension _ cs => all cs
    | Literal _ | Symbol _ => Forall_nil P
    | Add l r | Import l r | FromImport l r =>
        Forall_cons l (node_fields_ind P step l)
          (Forall_cons r (node_fields_ind P step r) (Forall_nil P))
    | FunCall f args | Filter f args =>
        Forall_cons f (node_fields_ind P step f) (all args)
    | Extends x | Include x =>
        Forall_cons x (node_fields_ind P step x) (Forall_nil P)
    end.

Lemma traverseAndCheck_fields (t : nodeType) (n : node) :
  traverseAndCheck t n =
  ((if instanceOf n t then [n] else []) ++
   flat_map (traverseAndCheck t) (fieldsOf n))%list.
Proof.
  destruct n; simpl; rewrite ?app_nil_r; destruct t; reflexivity.
Qed.

Lemma documentOrder_fields (n : node) :
  documentOrder n = n :: flat_map documentOrder (fieldsOf n).
Proof.
  destruct n; simpl; rewrite ?app_nil_r; reflexivity.
Qed.

Lemma filter_flat_map {A B} (p : B -> bool) (f : A -> list B) (l : list A) :
  List.filter p (flat_map f l) = flat_map (fun x => List.filter p (f x)) l.
Proof.
  induction l as [|x l IH]; simpl; [reflexivity|].
  now rewrite filter_app, IH.
Qed.

Lemma flat_map_ext_Forall {A B} (f g : A -> list B) (l : list A) :
  Forall (fun x => f x = g x) l -> flat_map f l = flat_map g l.
Proof.
  induction 1 as [|x l Hx _ IH]; simpl; [reflexivity | now rewrite Hx, IH].
Qed.

(** The traversal of nunjucks visits the tree in document order. *)
Lemma traverseAndCheck_documentOrder (t : nodeType) (n : node) :
  traverseAndCheck t n = List.filter (fun m => instanceOf m t) (documentOrder n).
Proof.
  induction n as [n IH] using node_fields_ind.
  rewrite traverseAndCheck_fields, documentOrder_fields. simpl List.filter.
  rewrite filter_flat_map, (flat_map_ext_Forall _ _ _ IH).
  destruct (instanceOf n t); reflexivity.
Qed.

Lemma findAll_documentOrder (t : nodeType) (nodes : node) :
  findAll t nodes = List.filter (fun m => instanceOf m t) (descendants nodes).
Proof.
  unfold findAll, descendants. rewrite filter_flat_map.
  apply flat_map_ext_Forall, Forall_forall. intros n _.
  apply traverseAndCheck_documentOrder.
Qed.

Lemma mapM_total {A B} (f : A -> result B) (g : A -> B) (l : list A) :
  Forall (fun x => f x = Ok (g x)) l -> mapM f l = Ok (map g l).
Proof.
  induction 1 as [|x l Hx _ IH]; simpl; [reflexivity | now rewrite Hx, IH].
Qed.

Lemma templateValue_directive (n : node) :
  isInclusionDirective n = true -> templateValue n = Ok (templateName n).
Proof. destruct n; simpl; intros H; try discriminate; reflexivity. Qed.

End Traversal.

(** ** The template-dependency collector *)

Section CollectorFacts.

Lemma filter_orb_Permutation {A} (p q : A -> bool) (l : list A) :
  (forall x, p x = true -> q x = false) ->
  Permutation (List.filter (fun x => p x || q x) l)
              (List.filter p l ++ List.filter q l).
Proof.
  intros Hpq. induction l as [|x l IH]; simpl; [constructor|].
  destruct (p x) eqn:Ep; simpl.
  - rewrite (Hpq x Ep). now constructor.
  - destruct (q x); [|assumption].
    now apply Permutation_cons_app.
Qed.

Lemma directives_by_class (l : list node) :
  Permutation
    (List.filter (fun n => instanceOf n TExtends) l ++
     List.filter (fun n => instanceOf n TInclude) l ++
     List.filter (fun n => instanceOf n TImport) l ++
     List.filter (fun n => instanceOf n TFromImport) l)
    (List.filter isInclusionDirective l).
Proof.
  symmetry. unfold isInclusionDirective.
  etransitivity.
  { apply (filter_orb_Permutation
             (fun n => instanceOf n TExtends || instanceOf n TInclude
                       || instanceOf n TImport)
             (fun n => instanceOf n TFromImport)).
    intros n; destruct n; simpl; congruence. }
  rewrite !app_assoc. apply Permutation_app_tail. rewrite <- app_assoc.
  etransitivity.
  { apply (filter_orb_Permutation
             (fun n => instanceOf n TExtends || instanceOf n TInclude)
             (fun n => instanceOf n TImport)).
    intros n; destruct n; simpl; congruence. }
  rewrite app_assoc. apply Permutation_app_tail.
  apply filter_orb_Permutation.
  intros n; destruct n; simpl; congruence.
Qed.

End CollectorFacts.

(** C3, as the code has it.  The collector returns the template name of
    every extends, include, import and from-import directive, duplicates
    preserved, grouped by class: all extends first, then the includes, the
    imports and the from-imports, each group in document order.  The whole
    is a rearrangement of the references in document order. *)
Theorem getDependencies_grouped_by_class
    (parse : string -> result node) (source : string) (nodes : node) :
  parse source = Ok nodes ->
  getDependencies parse source =
    Ok (referencesOfClass TExtends nodes ++ referencesOfClass TInclude nodes ++
        referencesOfClass TImport nodes ++ referencesOfClass TFromImport nodes)%list
  /\ Permutation
       (referencesOfClass TExtends nodes ++ referencesOfClass TInclude nodes ++
        referencesOfClass TImport nodes ++ referencesOfClass TFromImport nodes)
       (referencesInDocumentOrder nodes).
Proof.
  intros Hparse. split.
  - unfold getDependencies. rewrite Hparse. simpl bind.
    rewrite !findAll_documentOrder.
    unfold referencesOfClass. rewrite <- !map_app.
    apply mapM_total.
    rewrite !Forall_app; repeat split; apply Forall_forall; intros n Hn;
      apply filter_In in Hn as [_ Hn]; apply templateValue_directive;
      unfold isInclusionDirective; rewrite Hn; rewrite ?orb_true_r; reflexivity.
  - unfold referencesOfClass, referencesInDocumentOrder.
    rewrite <- !map_app. apply Permutation_map, directives_by_class.
Qed.

Lemma getDependencies_grouped_by_class_witness :
  getDependencies
    (fun _ => Ok (NodeList [Include (Literal (VStr "a.njk"));
                            Extends (Literal (VStr "base.njk"))])) "src"
  = Ok [VStr "base.njk"; VStr "a.njk"].
Proof.
  exact (proj1 (getDependencies_grouped_by_class
                  (fun _ => Ok (NodeList [Include (Literal (VStr "a.njk"));
                                          Extends (Literal (VStr "base.njk"))]))
                  "src" _ eq_refl)).
Defined.

(** C3 as stated fails: an import written before an include comes after it
    in the result. *)
Lemma getDependencies_not_in_document_order :
  let nodes := NodeList [Import (Literal (VStr "macros.njk")) (Symbol "m");
                         Include (Literal (VStr "header.njk"))] in
  getDependencies (fun _ => Ok nodes) "src"
    = Ok [VStr "header.njk"; VStr "macros.njk"]
  /\ referencesInDocumentOrder nodes = [VStr "macros.njk"; VStr "header.njk"]
  /\ getDependencies (fun _ => Ok nodes) "src"
     <> Ok (referencesInDocumentOrder nodes).
Proof.
  repeat split. discriminate.
Qed.

(** ** Deduplication of asset values *)

Section Deduplication.

Lemma strictEq_true (a b : value) : strictEq a b = true <-> a = b.
Proof. unfold strictEq. destruct (value_eq_dec a b); split; congruence. Qed.

Lemma strictEq_false (a b : value) : strictEq a b = false <-> a <> b.
Proof. unfold strictEq. destruct (value_eq_dec a b); split; congruence. Qed.

Lemma strictEq_refl (a : value) : strictEq a a = true.
Proof. now apply strictEq_true. Qed.

Lemma seen_spec (seen : list value) (v : value) :
  existsb (fun s => strictEq s v) seen = true <-> In v seen.
Proof.
  rewrite existsb_exists. split.
  - intros (s & Hs & E). apply strictEq_true in E. now subst.
  - intros H. exists v. split; [assumption | apply strictEq_refl].
Qed.

(** [indexOf] finds nothing before the first occurrence. *)
Lemma indexOfFrom_bounds (item : value) (l : list value) (i : Z) :
  In item l ->
  (i <= JsArray.indexOfFrom item i l < i + Z.of_nat (List.length l))%Z.
Proof.
  revert i. induction l as [|x l IH]; intros i Hin; [destruct Hin|].
  simpl JsArray.indexOfFrom. destruct (strictEq x item) eqn:E.
  - simpl List.length. lia.
  - destruct Hin as [->|Hin]; [now rewrite strictEq_refl in E|].
    specialize (IH (i + 1)%Z Hin). simpl List.length. lia.
Qed.

Lemma indexOfFrom_skip (item : value) (before after : list value) (i : Z) :
  ~ In item before ->
  JsArray.indexOfFrom item i (before ++ after) =
  JsArray.indexOfFrom item (i + Z.of_nat (List.length before)) after.
Proof.
  revert i. induction before as [|x before IH]; intros i Hnot; simpl.
  - f_equal. lia.
  - destruct (strictEq x item) eqn:E.
    + apply strictEq_true in E. subst. exfalso. apply Hnot. now left.
    + rewrite IH by (intros H; apply Hnot; now right). f_equal. lia.
Qed.

(** An element is unique at its index exactly when it was not met before. *)
Lemma isUnique_spec (before after : list value) (v : value) :
  isUnique v (Z.of_nat (List.length before)) (before ++ v :: after)
  = negb (existsb (fun s => strictEq s v) before).
Proof.
  unfold isUnique, JsArray.indexOf.
  destruct (existsb (fun s => strictEq s v) before) eqn:E; simpl.
  - apply seen_spec in E. apply Z.eqb_neq.
    pose proof (indexOfFrom_bounds v before 0 E) as Hb.
    assert (Hpre : forall l i, In v l ->
               JsArray.indexOfFrom v i (l ++ v :: after) = JsArray.indexOfFrom v i l).
    { induction l as [|x l IH]; intros i Hin; [destruct Hin|]. simpl.
      destruct (strictEq x v) eqn:Ex; [reflexivity|].
      destruct Hin as [->|Hin]; [now rewrite strictEq_refl in Ex|]. now apply IH. }
    rewrite Hpre by assumption. lia.
  - apply Z.eqb_eq. rewrite indexOfFrom_skip.
    + simpl. rewrite strictEq_refl. lia.
    + intros H. apply seen_spec in H. congruence.
Qed.

Lemma filterFrom_isUnique (before rest : list value) :
  JsArray.filterFrom isUnique (before ++ rest) (Z.of_nat (List.length before)) rest
  = firstOccurrencesAfter before rest.
Proof.
  revert before. induction rest as [|v rest IH]; intros before; [reflexivity|].
  simpl. rewrite isUnique_spec.
  replace (Z.of_nat (List.length before) + 1)%Z
    with (Z.of_nat (List.length (before ++ [v])))
    by (rewrite length_app; simpl; lia).
  replace (before ++ v :: rest)%list with ((before ++ [v]) ++ rest)%list
    by (now rewrite <- app_assoc).
  rewrite IH.
  destruct (existsb (fun s => strictEq s v) before) eqn:E; simpl; [|reflexivity].
  clear IH. revert before E.
  induction rest as [|w rest IHr]; intros before E; [reflexivity|].
  simpl. rewrite existsb_app. simpl. rewrite orb_false_r.
  destruct (existsb (fun s => strictEq s w) before) eqn:Ew; simpl.
  - apply IHr. assumption.
  - destruct (strictEq v w) eqn:Evw.
    + apply strictEq_true in Evw. subst. congruence.
    + f_equal.
      assert (Hgen : forall l a b,
                 (forall x, In x a <-> In x b) ->
                 firstOccurrencesAfter a l = firstOccurrencesAfter b l).
      { clear. induction l as [|x l IHl]; intros a b Hab; [reflexivity|].
        simpl.
        assert (Ex : existsb (fun s => strictEq s x) a
                     = existsb (fun s => strictEq s x) b).
        { apply eq_true_iff_eq. rewrite !seen_spec. apply Hab. }
        rewrite Ex. destruct (existsb (fun s => strictEq s x) b).
        - now apply IHl.
        - f_equal. apply IHl. intros y. rewrite !in_app_iff.
          now rewrite Hab. }
      apply Hgen. intros x. rewrite !in_app_iff. simpl.
      apply seen_spec in E. split; intros H.
      * destruct H as [[H|[H|[]]]|[H|[]]]; subst; auto.
      * destruct H as [H|[H|[]]]; subst; auto.
Qed.

Lemma firstOccurrencesAfter_In (seen values : list value) (v : value) :
  In v (firstOccurrencesAfter seen values) <-> In v values /\ ~ In v seen.
Proof.
  revert seen. induction values as [|x values IH]; intros seen; simpl.
  - tauto.
  - destruct (existsb (fun s => strictEq s x) seen) eqn:E.
    + apply seen_spec in E. rewrite IH. split.
      * intros [H1 H2]. auto.
      * intros [[->|H1] H2]; [contradiction | auto].
    + assert (Hx : ~ In x seen).
      { intros H. apply seen_spec in H. congruence. }
      simpl. rewrite IH, in_app_iff. simpl. split.
      * intros [->|[H1 H2]]; [auto | split; [auto | tauto]].
      * intros [[->|H1] H2]; [auto|].
        destruct (value_eq_dec x v) as [->|Hne]; [auto|].
        right. split; [assumption|]. intros [H|[H|[]]]; auto.
Qed.

Lemma firstOccurrencesAfter_NoDup (seen values : list value) :
  NoDup (firstOccurrencesAfter seen values).
Proof.
  revert seen. induction values as [|x values IH]; intros seen; simpl.
  - constructor.
  - destruct (existsb (fun s => strictEq s x) seen); [apply IH|].
    constructor; [|apply IH].
    rewrite firstOccurrencesAfter_In, in_app_iff. simpl. tauto.
Qed.

End Deduplication.

(** C4. The asset list handed to resolution holds every distinct path text
    of the template's asset calls exactly once, at the place of its first
    occurrence: calls with the same text give one entry. *)
Theorem assetValues_deduplicated (nodes : node) (values : list value) :
  getNodesValues nodes TFunCall getGlobalFnValue = Ok values ->
  exists assets,
    assetValues nodes = Ok assets
    /\ assets = firstOccurrences values
    /\ NoDup assets
    /\ (forall v, In v assets <-> In v values)
    /\ (forall v, In v values -> count_occ value_eq_dec assets v = 1)
    /\ (forall existsOnDisk resolvePath searchAssets,
          let possiblePaths :=
            getPossiblePaths resolvePath assets (JsArray.concatOntoEmpty searchAssets) in
          getAssets existsOnDisk resolvePath nodes searchAssets
            = Ok (map (resolveAs existsOnDisk "Asset") possiblePaths)
          /\ map fst possiblePaths = assets).
Proof.
  intros Hvalues. exists (firstOccurrences values).
  assert (Hassets : assetValues nodes = Ok (firstOccurrences values)).
  { unfold assetValues. rewrite Hvalues. simpl bind. f_equal.
    exact (filterFrom_isUnique [] values). }
  assert (Hnodup : NoDup (firstOccurrences values))
    by apply firstOccurrencesAfter_NoDup.
  assert (Hin : forall v, In v (firstOccurrences values) <-> In v values).
  { intros v. unfold firstOccurrences. rewrite firstOccurrencesAfter_In.
    simpl. tauto. }
  repeat split; try assumption; try (now apply Hin).
  - intros v Hv. apply Hin in Hv.
    apply (NoDup_count_occ' value_eq_dec); assumption.
  - unfold getAssets. rewrite Hassets. reflexivity.
  - unfold getPossiblePaths. rewrite map_map. simpl. apply map_id.
Qed.

Lemma assetValues_deduplicated_witness :
  exists assets,
    assetValues
      (NodeList [FunCall (Symbol "static") [Literal (VStr "a.png")];
                 FunCall (Symbol "static") [Literal (VStr "b.png")];
                 FunCall (Symbol "static") [Literal (VStr "a.png")]])
    = Ok assets
    /\ assets = firstOccurrences [VStr "a.png"; VStr "b.png"; VStr "a.png"]
    /\ NoDup assets
    /\ (forall v, In v assets <-> In v [VStr "a.png"; VStr "b.png"; VStr "a.png"])
    /\ (forall v, In v [VStr "a.png"; VStr "b.png"; VStr "a.png"] ->
                  count_occ value_eq_dec assets v = 1).
Proof.
  destruct (assetValues_deduplicated
              (NodeList [FunCall (Symbol "static") [Literal (VStr "a.png")];
                         FunCall (Symbol "static") [Literal (VStr "b.png")];
                         FunCall (Symbol "static") [Literal (VStr "a.png")]])
              [VStr "a.png"; VStr "b.png"; VStr "a.png"] eq_refl)
    as (assets & H1 & H2 & H3 & H4 & H5 & _).
  exists assets. repeat split; try assumption; apply H4.
Defined.

(** ** Extension usages *)

(** C8.  For descriptors declared under distinct names, as the entries of
    the [extensions] option are, a descriptor is retained exactly when some
    call-extension node of the tree matches it by its declared name or by
    its live instance, and no descriptor is retained twice. *)
Theorem usedExtensions_retains_matched (nodes : node) (declared : list addon) :
  NoDup (map (fun d : addon => fst (fst d)) declared) ->
  (forall d, In d declared ->
     (In d (usedExtensions nodes declared) <->
      exists n, In n (findAll TCallExtension nodes) /\ extensionMatches d n))
  /\ (forall d, In d (usedExtensions nodes declared) -> In d declared)
  /\ NoDup (usedExtensions nodes declared).
Proof.
  intros Hnames. unfold usedExtensions, getUsagesOf. repeat split.
  - intros Hd. apply filter_In in Hd as [_ Hd].
    apply existsb_exists in Hd as (n & Hn & Hm). exists n. split; [assumption|].
    destruct d as [[name path] instance]. simpl.
    apply orb_true_iff in Hm as [Hm|Hm]; apply strictEq_true in Hm; auto.
  - intros (n & Hn & Hm). apply filter_In. split; [assumption|].
    apply existsb_exists. exists n. split; [assumption|].
    destruct d as [[name path] instance]. simpl in Hm. apply orb_true_iff.
    destruct Hm as [Hm|Hm]; [left|right]; apply strictEq_true; auto.
  - intros d Hd. now apply filter_In in Hd.
  - apply NoDup_filter. eapply NoDup_map_inv. exact Hnames.
Qed.

Lemma usedExtensions_retains_matched_witness :
  let nodes := NodeList [CallExtension (VStr "remote") []; CallExtension (VObj 7 "[object Object]") []] in
  let declared := [("remote", "./remote.js", VObj 3 "[object Object]");
                   ("unused", "./unused.js", VObj 5 "[object Object]");
                   ("byInstance", "./inst.js", VObj 7 "[object Object]")] in
  NoDup (usedExtensions nodes declared)
  /\ usedExtensions nodes declared
     = [("remote", "./remote.js", VObj 3 "[object Object]"); ("byInstance", "./inst.js", VObj 7 "[object Object]")].
Proof.
  split; [|reflexivity].
  apply (usedExtensions_retains_matched
           (NodeList [CallExtension (VStr "remote") []; CallExtension (VObj 7 "[object Object]") []])
           [("remote", "./remote.js", VObj 3 "[object Object]");
            ("unused", "./unused.js", VObj 5 "[object Object]");
            ("byInstance", "./inst.js", VObj 7 "[object Object]")]).
  simpl. repeat constructor; simpl; intuition discriminate.
Defined.

(** ** Path resolution *)

Section ResolutionFacts.

Variable existsOnDisk : string -> bool.
Variable resolvePath : string -> value -> string.

Lemma resolveAs_rejected (kind : string) (path : value) (paths : list string) :
  (forall p, In p paths -> existsOnDisk p = false) ->
  resolveAs existsOnDisk kind (path, paths) = Throw (notFound kind path).
Proof.
  intros Hnone. unfold resolveAs, getFirstExistedPath.
  destruct (find existsOnDisk paths) as [p|] eqn:E; [|reflexivity].
  apply find_some in E as [Hin Hp]. rewrite (Hnone p Hin) in Hp. discriminate.
Qed.

Lemma resolveAs_rejected_inv (kind : string) (entry : value * list string)
    (e : error) :
  resolveAs existsOnDisk kind entry = Throw e ->
  e = notFound kind (fst entry)
  /\ forall p, In p (snd entry) -> existsOnDisk p = false.
Proof.
  destruct entry as [path paths]. unfold resolveAs, getFirstExistedPath.
  destruct (find existsOnDisk paths) as [p|] eqn:E; simpl; [discriminate|].
  intros [= <-]. split; [reflexivity|].
  intros p Hp. exact (find_none _ _ E p Hp).
Qed.

(** A reference without candidate makes [Promise.all] able to reject with
    its message. *)
Lemma rejected_member (kind : string) (names : list value) (dirs : list string)
    (missing : value) :
  In missing names ->
  (forall dir, In dir dirs -> existsOnDisk (resolvePath dir missing) = false) ->
  Promise.all (map (resolveAs existsOnDisk kind)
                   (getPossiblePaths resolvePath names dirs))
              (Throw (notFound kind missing)).
Proof.
  intros Hin Hmissing. apply Promise.all_rejected. apply in_map_iff.
  exists (missing, map (fun dir => resolvePath dir missing) dirs). split.
  - apply resolveAs_rejected. intros p Hp.
    apply in_map_iff in Hp as (dir & <- & Hdir). auto.
  - unfold getPossiblePaths. apply in_map_iff. now exists missing.
Qed.

(** What [Promise.all] settles to when some reference has no candidate. *)
Lemma all_rejected_names_missing (kind : string) (names : list value)
    (dirs : list string) (missing : value)
    (outcome : Promise.promise (list (value * string))) :
  In missing names ->
  (forall dir, In dir dirs -> existsOnDisk (resolvePath dir missing) = false) ->
  Promise.all (map (resolveAs existsOnDisk kind)
                   (getPossiblePaths resolvePath names dirs)) outcome ->
  exists name,
    In name names
    /\ (forall dir, In dir dirs -> existsOnDisk (resolvePath dir name) = false)
    /\ outcome = Throw (notFound kind name).
Proof.
  intros Hin Hmissing Hall.
  assert (Hrej : In (Throw (notFound kind missing))
                    (map (resolveAs existsOnDisk kind)
                         (getPossiblePaths resolvePath names dirs))).
  { pose proof (rejected_member kind names dirs missing Hin Hmissing) as Hr.
    inversion Hr as [vs Hvs | ps e He]; subst; assumption. }
  inversion Hall as [vs Hvs Hout | ps e He Hps Hout]; subst.
  - rewrite <- Hvs in Hrej. apply in_map_iff in Hrej as (v & Hv & _).
    discriminate.
  - apply in_map_iff in He as (entry & He & Hentry).
    apply resolveAs_rejected_inv in He as [-> Hnone].
    unfold getPossiblePaths in Hentry.
    apply in_map_iff in Hentry as (name & <- & Hname). simpl in *.
    exists name. split; [assumption|]. split; [|reflexivity].
    intros dir Hdir. apply Hnone, in_map_iff. now exists dir.
Qed.

End ResolutionFacts.

(** C9.  A template or asset reference none of whose candidate paths
    exists is rejected with an error whose message names the reference and
    says which of the two it was: [Template "a" not found],
    [Asset "a" not found].  The whole resolution then fails, with that
    message for some reference that has no candidate. *)
Theorem missing_reference_is_named
    (existsOnDisk : string -> bool) (resolvePath : string -> value -> string)
    (nodes : node) (dirs : list string) (missing : value) :
  (forall dir, In dir dirs -> existsOnDisk (resolvePath dir missing) = false) ->
  let candidates := map (fun dir => resolvePath dir missing) dirs in
  resolveAs existsOnDisk "Template" (missing, candidates)
    = Throw (Error ("Template " ++ quoted (toString missing) ++ " not found"))
  /\ resolveAs existsOnDisk "Asset" (missing, candidates)
    = Throw (Error ("Asset " ++ quoted (toString missing) ++ " not found"))
  /\ (forall names, getDependenciesTemplates nodes = Ok names -> In missing names ->
      exists promises,
        getDependenciesImports existsOnDisk resolvePath nodes dirs = Ok promises
        /\ Promise.all promises (Throw (notFound "Template" missing))
        /\ forall outcome, Promise.all promises outcome ->
           exists name,
             In name names
             /\ (forall dir, In dir dirs ->
                             existsOnDisk (resolvePath dir name) = false)
             /\ outcome = Throw (notFound "Template" name))
  /\ (forall assets, assetValues nodes = Ok assets -> In missing assets ->
      exists promises,
        getAssets existsOnDisk resolvePath nodes (JsArray.Many dirs) = Ok promises
        /\ Promise.all promises (Throw (notFound "Asset" missing))
        /\ forall outcome, Promise.all promises outcome ->
           exists name,
             In name assets
             /\ (forall dir, In dir dirs ->
                             existsOnDisk (resolvePath dir name) = false)
             /\ outcome = Throw (notFound "Asset" name)).
Proof.
  intros Hmissing candidates.
  assert (Hnone : forall p, In p candidates -> existsOnDisk p = false).
  { intros p Hp. apply in_map_iff in Hp as (dir & <- & Hdir). auto. }
  split; [exact (resolveAs_rejected existsOnDisk "Template" missing candidates Hnone)|].
  split; [exact (resolveAs_rejected existsOnDisk "Asset" missing candidates Hnone)|].
  split.
  - intros names Hnames Hin. eexists. split; [|split].
    + unfold getDependenciesImports. rewrite Hnames. reflexivity.
    + now apply (rejected_member existsOnDisk resolvePath).
    + intros outcome Hall.
      exact (all_rejected_names_missing existsOnDisk resolvePath "Template"
               names dirs missing outcome Hin Hmissing Hall).
  - intros assets Hassets Hin. eexists. split; [|split].
    + unfold getAssets. rewrite Hassets. reflexivity.
    + now apply (rejected_member existsOnDisk resolvePath).
    + intros outcome Hall.
      exact (all_rejected_names_missing existsOnDisk resolvePath "Asset"
               assets dirs missing outcome Hin Hmissing Hall).
Qed.

Lemma missing_reference_is_named_witness :
  resolveAs (fun _ => false) "Template" (VStr "a", ["d1/a"; "d2/a"])
    = Throw (Error ("Template " ++ dquote ++ "a" ++ dquote ++ " not found"))
  /\ resolveAs (fun _ => false) "Asset" (VStr "a", ["d1/a"; "d2/a"])
    = Throw (Error ("Asset " ++ dquote ++ "a" ++ dquote ++ " not found")).
Proof.
  pose proof (missing_reference_is_named (fun _ => false)
                (fun dir name => dir ++ "/" ++ toString name)
                (NodeList [Include (Literal (VStr "a"))]) ["d1"; "d2"] (VStr "a")
                (fun dir _ => eq_refl)) as H.
  split; [exact (proj1 H) | exact (proj1 (proj2 H))].
Defined.

(** ** Splitting and escaping *)

Section SplitFacts.
Import JsString.

Lemma drop_length_append (a b : string) : drop (String.length a) (a ++ b) = b.
Proof. induction a as [|x a IH]; simpl; [now destruct b | assumption]. Qed.


Lemma prefix_true_inv (a s : string) :
  String.prefix a s = true -> s = a ++ drop (String.length a) s.
Proof.
  revert s. induction a as [|x a IH]; intros s H.
  - now destruct s.
  - destruct s as [|y s]; simpl in H; [discriminate|].
    destruct (ascii_dec x y) as [->|]; [|discriminate].
    simpl. f_equal. now apply IH.
Qed.

Lemma breakOn_step (sep : string) (c : ascii) (s : string) :
  String.prefix sep (String c s) = false ->
  breakOn sep (String c s) =
  match breakOn sep s with
  | Some (before, after) => Some (String c before, after)
  | None => None
  end.
Proof. intros H. cbn [breakOn]. now rewrite H. Qed.

Lemma breakOn_here (sep s : string) :
  String.prefix sep s = true ->
  breakOn sep s = Some (EmptyString, drop (String.length sep) s).
Proof. intros H. destruct s; cbn [breakOn]; now rewrite H. Qed.

(** What [breakOn] returns is a cut of the text at the separator. *)
Lemma breakOn_Some (sep s before after : string) :
  breakOn sep s = Some (before, after) -> s = before ++ sep ++ after.
Proof.
  revert before. induction s as [|c s IH]; intros before H.
  - destruct sep; simpl in H; [|discriminate].
    now injection H as <- <-.
  - destruct (String.prefix sep (String c s)) eqn:E.
    + rewrite breakOn_here in H by assumption. injection H as <- <-.
      simpl append. now apply prefix_true_inv.
    + rewrite breakOn_step in H by assumption.
      destruct (breakOn sep s) as [[b a]|]; [|discriminate].
      injection H as <- <-. simpl. f_equal. now apply IH.
Qed.

Lemma breakOn_shorter (sep s before after : string) :
  sep <> EmptyString ->
  breakOn sep s = Some (before, after) -> String.length after < String.length s.
Proof.
  intros Hsep H. apply breakOn_Some in H. subst s.
  rewrite !length_append. destruct sep; [congruence|]. simpl. lia.
Qed.

(** More fuel than the length of the text changes nothing. *)
Lemma splitFuel_enough (sep : string) (n m : nat) (s : string) :
  sep <> EmptyString ->
  String.length s <= n -> String.length s <= m ->
  splitFuel n s sep = splitFuel m s sep.
Proof.
  intros Hsep. revert m s. induction n as [|n IH]; intros m s Hn Hm.
  - destruct s; [|simpl in Hn; lia].
    destruct m; simpl; [reflexivity|].
    destruct sep; [congruence | reflexivity].
  - destruct m as [|m].
    + destruct s; [|simpl in Hm; lia]. simpl.
      destruct sep; [congruence | reflexivity].
    + simpl. destruct (breakOn sep s) as [[b a]|] eqn:E; [|reflexivity].
      f_equal. pose proof (breakOn_shorter _ _ _ _ Hsep E).
      apply IH; lia.
Qed.

Lemma split_unfold (sep s : string) :
  sep <> EmptyString ->
  split s sep =
  match breakOn sep s with
  | Some (before, after) => before :: split after sep
  | None => [s]
  end.
Proof.
  intros Hsep. unfold split. destruct s as [|c s].
  - simpl. destruct sep; [congruence | reflexivity].
  - change (String.length (String c s)) with (S (String.length s)).
    cbn [splitFuel]. destruct (breakOn sep (String c s)) as [[b a]|] eqn:E;
      [|reflexivity].
    f_equal. pose proof (breakOn_shorter _ _ _ _ Hsep E) as Hlt. simpl in Hlt.
    apply splitFuel_enough; [assumption | lia | lia].
Qed.

End SplitFacts.

(** Decide every comparison of characters in the goal, dropping the cases
    a known character or its class excludes. *)
Ltac char_cases :=
  repeat match goal with
    | |- context [Ascii.eqb ?a ?b] =>
        destruct (Ascii.eqb_spec a b); try subst; try congruence;
        try match goal with
          | H : RegExp.isSyntaxChar ?c = _ |- _ =>
              tryif is_var c then fail else (cbv in H; discriminate H)
          end
    end.

Section EscapeFacts.
Import JsString RegExp.

Lemma toRegExpSource_cons (c : ascii) (s : string) :
  toRegExpSource (String c s) =
  if isSyntaxChar c then String "\" (String c (toRegExpSource s))
  else String c (toRegExpSource s).
Proof. reflexivity. Qed.

Lemma toRegExpSource_append (a b : string) :
  toRegExpSource (a ++ b) = toRegExpSource a ++ toRegExpSource b.
Proof.
  induction a as [|c a IH]; [reflexivity|].
  simpl append. rewrite !toRegExpSource_cons, IH.
  now destruct (isSyntaxChar c).
Qed.

Lemma prefix_cons (a b : ascii) (s1 s2 : string) :
  String.prefix (String a s1) (String b s2) =
  if Ascii.eqb a b then String.prefix s1 s2 else false.
Proof.
  cbn [String.prefix].
  destruct (ascii_dec a b) as [->|Hne].
  - now rewrite Ascii.eqb_refl.
  - apply Ascii.eqb_neq in Hne. now rewrite Hne.
Qed.

Lemma prefix_nil (s : string) : String.prefix "" s = true.
Proof. now destruct s. Qed.

Lemma prefix_of_nil (a : ascii) (s : string) : String.prefix (String a s) "" = false.
Proof. reflexivity. Qed.

(** The escaped separator starts an escaped text exactly where the
    separator starts the text. *)
Lemma prefix_escaped_separator (s : string) :
  String.prefix " \+ " (toRegExpSource s) = String.prefix " + " s.
Proof.
  destruct s as [|c1 s]; [reflexivity|].
  rewrite toRegExpSource_cons.
  destruct (isSyntaxChar c1) eqn:E1; rewrite !prefix_cons; char_cases;
    try reflexivity.
  destruct s as [|c2 s]; [reflexivity|].
  rewrite toRegExpSource_cons.
  destruct (isSyntaxChar c2) eqn:E2; rewrite !prefix_cons; char_cases;
    try reflexivity.
  destruct s as [|c3 s]; [reflexivity|].
  rewrite toRegExpSource_cons.
  destruct (isSyntaxChar c3) eqn:E3; rewrite !prefix_cons; char_cases;
    try reflexivity.
  now rewrite !prefix_nil.
Qed.

(** Cutting the escaped text at the escaped separator is cutting the text
    at the separator. *)
Lemma breakOn_escaped (s : string) :
  breakOn " \+ " (toRegExpSource s) = option_map escapeBoth (breakOn " + " s).
Proof.
  induction s as [|c s IH]; [reflexivity|].
  destruct (String.prefix " + " (String c s)) eqn:E.
  - rewrite (breakOn_here " + ") by assumption.
    rewrite breakOn_here by (now rewrite prefix_escaped_separator).
    apply prefix_true_inv in E. simpl option_map. unfold escapeBoth. simpl fst.
    simpl snd. rewrite E at 1.
    change (toRegExpSource (" + " ++ drop (String.length " + ") (String c s)))
      with (" \+ " ++ toRegExpSource (drop (String.length " + ") (String c s))).
    now rewrite drop_length_append.
  - rewrite (breakOn_step " + ") by assumption.
    pose proof (prefix_escaped_separator (String c s)) as Hp. rewrite E in Hp.
    rewrite toRegExpSource_cons in *. destruct (isSyntaxChar c) eqn:Ec.
    + rewrite breakOn_step by reflexivity.
      rewrite breakOn_step.
      * rewrite IH. destruct (breakOn " + " s) as [[b a]|]; [|reflexivity].
        simpl. unfold escapeBoth. simpl. now rewrite Ec.
      * rewrite prefix_cons; char_cases; reflexivity.
    + rewrite breakOn_step by assumption.
      rewrite IH. destruct (breakOn " + " s) as [[b a]|]; [|reflexivity].
      simpl. unfold escapeBoth. simpl. now rewrite Ec.
Qed.

Lemma split_escaped_fuel (n : nat) (s : string) :
  splitFuel n (toRegExpSource s) " \+ " = map toRegExpSource (splitFuel n s " + ").
Proof.
  revert s. induction n as [|n IH]; intros s; [reflexivity|].
  simpl splitFuel. rewrite breakOn_escaped.
  destruct (breakOn " + " s) as [[b a]|]; [|reflexivity].
  simpl. now rewrite IH.
Qed.

Lemma length_toRegExpSource (s : string) :
  String.length s <= String.length (toRegExpSource s).
Proof.
  induction s as [|c s IH]; [reflexivity|].
  rewrite toRegExpSource_cons. destruct (isSyntaxChar c); simpl; lia.
Qed.

(** [toRegExpSource(path).split(' \\+ ')] gives the escaped parts of
    [path.split(' + ')]. *)
Lemma split_escaped (s : string) :
  split (toRegExpSource s) " \+ " = map toRegExpSource (split s " + ").
Proof.
  unfold split. rewrite split_escaped_fuel. f_equal.
  apply splitFuel_enough;
    [discriminate | apply length_toRegExpSource | reflexivity].
Qed.

End EscapeFacts.

(** ** The replacement pattern *)

Section PatternFacts.
Import JsString RegExp.

Lemma create_cons_escape (c : ascii) (rest : string) :
  isSyntaxChar c = true ->
  create (String "\" (String c rest)) = consItem (Char c) (create rest).
Proof. intros H. cbn [create]. change (Ascii.eqb "\" "\") with true. cbv iota. now rewrite H. Qed.

Lemma create_cons_plain (c : ascii) (rest : string) :
  isSyntaxChar c = false ->
  create (String c rest) = consItem (Char c) (create rest).
Proof.
  intros H. cbn [create].
  destruct (Ascii.eqb_spec c "\") as [->|_]; [cbv in H; discriminate H|].
  destruct (Ascii.eqb_spec c "(") as [->|_]; [cbv in H; discriminate H|].
  now rewrite H.
Qed.

(** An escaped text is read back as the characters of the text. *)
Lemma create_escaped (s rest : string) :
  create (toRegExpSource s ++ rest) =
  option_map (app (map Char (list_ascii_of_string s))) (create rest).
Proof.
  induction s as [|c s IH].
  - simpl. now destruct (create rest).
  - rewrite toRegExpSource_cons. destruct (isSyntaxChar c) eqn:Ec; simpl append.
    + rewrite create_cons_escape, IH by assumption.
      now destruct (create rest).
    + rewrite create_cons_plain, IH by assumption.
      now destruct (create rest).
Qed.

Lemma create_group (rest : string) :
  create ("([^+]+)" ++ rest) = consItem NotPlusGroup (create rest).
Proof. reflexivity. Qed.

Lemma create_separator (rest : string) :
  create (" \+ " ++ rest) =
  option_map (app (map Char (list_ascii_of_string " + "))) (create rest).
Proof.
  change (create (" \+ " ++ rest))
    with (consItem (Char " ") (consItem (Char "+") (consItem (Char " ") (create rest)))).
  now destruct (create rest).
Qed.

Lemma startsWith_escaped (part : string) :
  startsWith (toRegExpSource part) dquote = startsWith part dquote.
Proof.
  unfold startsWith, dquote. destruct part as [|c part]; [reflexivity|].
  rewrite toRegExpSource_cons.
  destruct (isSyntaxChar c) eqn:Ec; rewrite !prefix_cons; char_cases;
    rewrite ?prefix_nil; reflexivity.
Qed.

Lemma create_part (part rest : string) :
  create (partSource (toRegExpSource part) ++ rest) =
  option_map (app (fragmentPattern part)) (create rest).
Proof.
  unfold partSource, fragmentPattern. rewrite startsWith_escaped.
  destruct (startsWith part dquote); simpl negb; cbv iota.
  - apply create_escaped.
  - rewrite create_group. now destruct (create rest).
Qed.

Lemma create_joined (parts : list string) :
  create (String.concat " \+ " (map partSource (map toRegExpSource parts)))
  = Some (joinPatterns (map fragmentPattern parts)).
Proof.
  induction parts as [|p parts IH]; [reflexivity|].
  destruct parts as [|q parts].
  - simpl String.concat. rewrite <- (append_nil_r (partSource _)).
    rewrite create_part. simpl. now rewrite app_nil_r.
  - change (String.concat " \+ "
              (map partSource (map toRegExpSource (p :: q :: parts))))
      with (partSource (toRegExpSource p) ++ " \+ " ++
            String.concat " \+ " (map partSource (map toRegExpSource (q :: parts)))).
    rewrite create_part, create_separator, IH. reflexivity.
Qed.

(** The pattern of a dynamic path: its fragments, literal ones verbatim and
    the others as wildcards, with the joining text between them. *)
Lemma getAssetReplaceRegExp_dynamic (path : string) :
  isDynamicPath path = true ->
  getAssetReplaceRegExp path = Some (dynamicPattern path).
Proof.
  intros H. unfold getAssetReplaceRegExp, dynamicPattern. rewrite H.
  rewrite split_escaped. apply create_joined.
Qed.

(** The pattern of a static path: the quoted path, verbatim. *)
Lemma getAssetReplaceRegExp_static (path : string) :
  isDynamicPath path = false ->
  getAssetReplaceRegExp path = Some (staticPattern path).
Proof.
  intros H. unfold getAssetReplaceRegExp, staticPattern. rewrite H.
  rewrite <- (append_nil_r (toRegExpSource _)), create_escaped.
  simpl. now rewrite app_nil_r.
Qed.

Lemma getAssetReplaceRegExp_total (path : string) :
  exists re, getAssetReplaceRegExp path = Some re.
Proof.
  destruct (isDynamicPath path) eqn:E; eexists;
    [now apply getAssetReplaceRegExp_dynamic | now apply getAssetReplaceRegExp_static].
Qed.

End PatternFacts.

(** ** Matching *)

Section MatchFacts.
Import JsString RegExp.

Lemma list_ascii_append (a b : string) :
  list_ascii_of_string (a ++ b) = (list_ascii_of_string a ++ list_ascii_of_string b)%list.
Proof. induction a as [|c a IH]; simpl; [reflexivity | now rewrite IH]. Qed.

(** What a group has taken when the match goes on after it. *)
Lemma matchGroup_sound (continue : string -> option (list string * string))
    (s taken : string) (captures : list string) (rest : string) :
  matchGroup continue taken s = Some (captures, rest) ->
  exists more s' captures',
    captures = (taken ++ more) :: captures'
    /\ s = more ++ s'
    /\ isArgument more
    /\ continue s' = Some (captures', rest).
Proof.
  revert taken. induction s as [|d s IH]; intros taken H; [discriminate|].
  cbn [matchGroup] in H.
  destruct (Ascii.eqb_spec d "+") as [->|Hd]; [discriminate|].
  destruct (matchGroup continue (taken ++ String d "") s) as [r|] eqn:E.
  - injection H as ->.
    destruct (IH _ E) as (more & s' & captures' & -> & -> & [Hne Hplus] & Hk).
    exists (String d more), s', captures'. repeat split.
    + now rewrite append_assoc.
    + discriminate.
    + simpl. intros [Heq|Hin]; [congruence | contradiction].
    + assumption.
  - destruct (continue s) as [[captures' rest']|] eqn:Ek; [|discriminate].
    injection H as <- <-.
    exists (String d ""), s, captures'. repeat split.
    + discriminate.
    + simpl. intros [Heq|[]]. congruence.
    + assumption.
Qed.

(** A match is the pattern with its groups filled by the captures, each
    group by an argument. *)
Lemma matchHere_sound (re : regexp) (s : string) (captures : list string)
    (rest : string) :
  matchHere re s = Some (captures, rest) ->
  exists matched,
    instantiate re captures = Some matched
    /\ s = matched ++ rest
    /\ Forall isArgument captures
    /\ List.length captures = groupCount re.
Proof.
  revert s captures. induction re as [|[c|] re IH]; intros s captures H.
  - injection H as <- <-. exists "". repeat split; constructor.
  - destruct s as [|d s]; [discriminate|]. cbn [matchHere] in H.
    destruct (Ascii.eqb_spec c d) as [->|_]; [|discriminate].
    destruct (IH _ _ H) as (m & Hm & -> & Hall & Hlen).
    exists (String d m). cbn [instantiate groupCount]. rewrite Hm.
    repeat split; assumption.
  - cbn [matchHere] in H. apply matchGroup_sound in H
      as (more & s' & captures' & -> & -> & Harg & Hk).
    destruct (IH _ _ Hk) as (m & Hm & -> & Hall & Hlen).
    exists (more ++ m). cbn [instantiate groupCount]. rewrite Hm.
    repeat split.
    + now rewrite append_assoc.
    + constructor; assumption.
    + simpl. now rewrite Hlen.
Qed.


Lemma groupCount_chars (text : string) (re : regexp) :
  groupCount (map Char (list_ascii_of_string text) ++ re)%list = groupCount re.
Proof. induction text as [|c text IH]; simpl; [reflexivity | assumption]. Qed.


Lemma concat_cons_nonempty (sep x : string) (xs : list string) :
  xs <> [] -> String.concat sep (x :: xs) = x ++ sep ++ String.concat sep xs.
Proof. destruct xs; [congruence | reflexivity]. Qed.



Lemma split_nonempty (s sep : string) : split s sep <> [].
Proof. unfold split. destruct (String.length s); simpl; [discriminate|].
  now destruct (breakOn sep s) as [[b a]|]. Qed.

End MatchFacts.

Section MatchCompleteness.
Import JsString RegExp.



End MatchCompleteness.

(** ** Replacing *)

Section ReplaceFacts.
Import JsString RegExp JsReplace.

(** The replacer keeps the lookup and the captures, and drops the offset and
    the subject that follow them. *)
Lemma assetReplacer_captures (uuid matched : string) (captures : list string)
    (argsCount offset : nat) (subject : string) :
  List.length captures = argsCount ->
  assetReplacer uuid argsCount matched
    (map Capture captures ++ [Offset offset; Subject subject])
  = String.concat "," (lookupExpression uuid :: captures).
Proof.
  intros <-. unfold assetReplacer, lookupExpression.
  rewrite firstn_app, length_map, Nat.sub_diag, firstn_O, app_nil_r.
  rewrite firstn_all2 by (rewrite length_map; lia).
  rewrite map_map. simpl argToString. now rewrite map_id.
Qed.


(** Where the pattern matches nowhere, replacing changes nothing. *)
Lemma replaceFrom_no_match (re : regexp) (fn : string -> list replacerArg -> string)
    (subject s : string) :
  test re s = false ->
  forall offset, replaceFrom re fn subject offset 0 s = s.
Proof.
  induction s as [|c s IH]; intros Htest offset; cbn [test] in Htest;
    cbn [replaceFrom]; destruct (matchHere re _); try discriminate;
    [reflexivity | now rewrite IH].
Qed.


Lemma replaceAssetPath_no_match (text : string) (asset : string * string) :
  matchesSomewhere asset text = false -> replaceAssetPath text asset = Some text.
Proof.
  destruct asset as [uuid path]. unfold matchesSomewhere, replaceAssetPath.
  simpl snd. destruct (getAssetReplaceRegExp_total path) as [re ->].
  intros H. unfold replace. now rewrite replaceFrom_no_match.
Qed.




End ReplaceFacts.

(** ** The asset rewriter *)

Section RewriterFacts.
Import JsString RegExp JsReplace.


Lemma getArgs_static (path : string) :
  isDynamicPath path = false ->
  List.length (getArgs path) = groupCount (staticPattern path).
Proof.
  intros H. unfold getArgs, staticPattern. rewrite H.
  rewrite <- (app_nil_r (map Char _)). now rewrite groupCount_chars.
Qed.

End RewriterFacts.


(** C6.  With no asset entries the text comes back unchanged. *)
Theorem replaceAssets_no_entries (precompiled : string) :
  replaceAssets precompiled [] = Some precompiled.
Proof. reflexivity. Qed.




(** ** Rendered fragments and split parts *)

Section JoinFacts.
Import JsString RegExp.







End JoinFacts.






(** * Further properties *)

(** ** The expression evaluator *)

Section EvaluatorValue.

Lemma chainOperands_nonempty (n : node) : chainOperands n <> [].
Proof.
  induction n; simpl; try discriminate.
  destruct (chainOperands n1); [assumption | discriminate].
Qed.

(** The value of an operand all of whose leaves have a text. *)
Lemma addOperand_value (n : node) :
  Forall (fun m => isLiteralOrSymbol m = true) (chainOperands n) ->
  addOperand n (getAddNodeValue n)
  = Ok (String.concat " + " (map operandText (chainOperands n))).
Proof.
  induction n; simpl; intros H;
    try (apply Forall_inv in H; discriminate H); try reflexivity.
  apply Forall_app in H as [Hl Hr].
  unfold addOperand at 1. simpl. rewrite (IHn1 Hl), (IHn2 Hr). simpl.
  rewrite map_app, concat_app_nonempty.
  - reflexivity.
  - intros E. apply map_eq_nil in E. now apply chainOperands_nonempty in E.
  - intros E. apply map_eq_nil in E. now apply chainOperands_nonempty in E.
Qed.

End EvaluatorValue.

(** X1.  What [getAddNodeValue] returns on a concatenation, in full: when
    every operand of the chain is a literal or a symbol, the texts of the
    operands joined with [" + "], a literal of any kind being its string
    form in double quotes; otherwise a TypeError whose message is
    ['Unsupported node signature'], wherever the offending operand is. *)
Theorem getAddNodeValue_value (l r : node) :
  getAddNodeValue (Add l r) =
  if forallb isLiteralOrSymbol (chainOperands (Add l r))
  then Ok (String.concat " + " (map operandText (chainOperands (Add l r))))
  else Throw (TypeError "Unsupported node signature").
Proof.
  destruct (forallb isLiteralOrSymbol (chainOperands (Add l r))) eqn:E.
  - apply (addOperand_value (Add l r)).
    apply Forall_forall. rewrite forallb_forall in E. exact E.
  - apply (addOperand_unsupported (Add l r)).
    apply Exists_exists.
    destruct (forallb_forall isLiteralOrSymbol (chainOperands (Add l r))) as [_ Hall].
    destruct (Exists_dec (fun m => isLiteralOrSymbol m = false)
                (chainOperands (Add l r))
                (fun m => bool_dec (isLiteralOrSymbol m) false)) as [Hex|Hno].
    + now apply Exists_exists in Hex.
    + exfalso. rewrite Hall in E; [discriminate|].
      intros m Hm. destruct (isLiteralOrSymbol m) eqn:Em; [reflexivity|].
      exfalso. apply Hno, Exists_exists. now exists m.
Qed.

(** ** Asset extraction *)

Section AssetExtraction.

Lemma findAll_instanceOf (t : nodeType) (nodes n : node) :
  In n (findAll t nodes) -> instanceOf n t = true.
Proof.
  rewrite findAll_documentOrder. intros H. now apply filter_In in H.
Qed.

Lemma firstOccurrencesAfter_fresh (seen values : list value) :
  NoDup values -> (forall v, In v values -> ~ In v seen) ->
  firstOccurrencesAfter seen values = values.
Proof.
  intros Hnd. revert seen. induction Hnd as [|v values Hv Hnd IH]; intros seen Hfresh.
  - reflexivity.
  - simpl. destruct (existsb (fun s => strictEq s v) seen) eqn:E.
    + apply seen_spec in E. exfalso. apply (Hfresh v); [now left | assumption].
    + f_equal. apply IH. intros w Hw Hin. apply in_app_iff in Hin as [Hin|[<-|[]]].
      * apply (Hfresh w); [now right | assumption].
      * contradiction.
Qed.

Lemma filter_isUnique_firstOccurrences (values : list value) :
  JsArray.filter isUnique values = firstOccurrences values.
Proof. exact (filterFrom_isUnique [] values). Qed.

End AssetExtraction.

(** X3.  Calls of any function other than [static] are passed over by the
    extraction whatever their arguments are, also none at all: each gives
    [undefined], without a throw, and a template with no [static] call has
    an empty asset list. *)
Theorem calls_of_other_functions_ignored (nodes : node) :
  (forall n, In n (findAll TFunCall nodes) -> nameValueOf n <> VStr "static") ->
  mapM getGlobalFnValue (findAll TFunCall nodes)
    = Ok (map (fun _ => VUndefined) (findAll TFunCall nodes))
  /\ assetValues nodes = Ok [].
Proof.
  intros Hother.
  assert (Hmap : mapM getGlobalFnValue (findAll TFunCall nodes)
                 = Ok (map (fun _ => VUndefined) (findAll TFunCall nodes))).
  { apply mapM_total, Forall_forall. intros n Hn.
    pose proof (findAll_instanceOf _ _ _ Hn) as Hi. specialize (Hother n Hn).
    destruct n; try discriminate Hi; unfold nameValueOf in Hother; simpl in *;
      apply strictEq_false in Hother; now rewrite Hother. }
  split; [assumption|].
  unfold assetValues, getNodesValues. rewrite Hmap. simpl bind.
  assert (Hnone : forall l : list node,
             List.filter (fun v => negb (strictEq v VUndefined))
               (map (fun _ => VUndefined) l) = []).
  { induction l as [|x l IH]; [reflexivity | exact IH]. }
  now rewrite Hnone.
Qed.

Lemma calls_of_other_functions_ignored_witness :
  assetValues
    (NodeList [FunCall (Symbol "url") [];
               Other [FunCall (Symbol "asset")
                        [Add (Literal (VStr "a")) (FunCall (Symbol "f") [])]]])
  = Ok [].
Proof.
  apply calls_of_other_functions_ignored.
  intros n [<-|[<-|[<-|[]]]]; discriminate.
Defined.

(** X4.  A [static] call whose argument is a symbol gives the symbol's name,
    the value the call with that name as a string literal gives; the two
    calls are then one asset. *)
Theorem static_symbol_is_its_name (callee : node) (name : string) :
  valueOf callee = VStr "static" ->
  getGlobalFnValue (FunCall callee [Symbol name]) = Ok (VStr name)
  /\ getGlobalFnValue (FunCall callee [Symbol name])
     = getGlobalFnValue (FunCall callee [Literal (VStr name)])
  /\ assetValues (NodeList [FunCall callee [Symbol name];
                            FunCall callee [Literal (VStr name)]])
     = Ok [VStr name].
Proof.
  intros Hcallee.
  assert (Hs : getGlobalFnValue (FunCall callee [Symbol name]) = Ok (VStr name)).
  { simpl. now rewrite Hcallee. }
  assert (Hl : getGlobalFnValue (FunCall callee [Literal (VStr name)]) = Ok (VStr name)).
  { simpl. now rewrite Hcallee. }
  split; [assumption|]. split; [now rewrite Hs, Hl|].
  assert (Hfind : findAll TFunCall
                    (NodeList [FunCall callee [Symbol name];
                               FunCall callee [Literal (VStr name)]])
                  = [FunCall callee [Symbol name];
                     FunCall callee [Literal (VStr name)]]).
  { destruct callee; try discriminate Hcallee; reflexivity. }
  unfold assetValues, getNodesValues. rewrite Hfind.
  cbn [mapM]. rewrite Hs, Hl. cbn [bind List.filter].
  change (strictEq (VStr name) VUndefined) with false. cbn [negb].
  unfold JsArray.filter, JsArray.filterFrom, isUnique, JsArray.indexOf.
  cbn [JsArray.indexOfFrom]. rewrite strictEq_refl. reflexivity.
Qed.

Lemma static_symbol_is_its_name_witness :
  getGlobalFnValue (FunCall (Symbol "static") [Symbol "logo"]) = Ok (VStr "logo").
Proof.
  apply (static_symbol_is_its_name (Symbol "static") "logo"). reflexivity.
Defined.

(** X5.  Deduplicating a list a second time changes nothing, and a list
    without duplicates is left as it is. *)
Theorem isUnique_filter_idempotent (values : list value) :
  JsArray.filter isUnique (JsArray.filter isUnique values)
    = JsArray.filter isUnique values
  /\ (NoDup values -> JsArray.filter isUnique values = values).
Proof.
  assert (Hid : forall l, NoDup l -> JsArray.filter isUnique l = l).
  { intros l Hnd. rewrite filter_isUnique_firstOccurrences.
    apply firstOccurrencesAfter_fresh; [assumption | intros v _ []]. }
  split; [|apply Hid].
  apply Hid. rewrite filter_isUnique_firstOccurrences.
  apply firstOccurrencesAfter_NoDup.
Qed.

Lemma isUnique_filter_idempotent_witness :
  JsArray.filter isUnique [VStr "a.png"; VStr "b.png"] = [VStr "a.png"; VStr "b.png"].
Proof.
  apply (proj2 (isUnique_filter_idempotent [VStr "a.png"; VStr "b.png"])).
  repeat constructor; simpl; intuition discriminate.
Defined.

(** ** The template-dependency collector *)

Section CollectorValue.

Lemma filter_none {A} (p : A -> bool) (l : list A) :
  (forall x, In x l -> p x = false) -> List.filter p l = [].
Proof.
  induction l as [|x l IH]; intros H; [reflexivity|].
  simpl. rewrite (H x) by now left. apply IH. intros y Hy. apply H. now right.
Qed.

(** What the collector returns, by class. *)
Lemma getDependencies_value (parse : string -> result node) (source : string)
    (nodes : node) :
  parse source = Ok nodes ->
  getDependencies parse source =
    Ok (referencesOfClass TExtends nodes ++ referencesOfClass TInclude nodes ++
        referencesOfClass TImport nodes ++ referencesOfClass TFromImport nodes)%list.
Proof.
  intros Hparse. unfold getDependencies. rewrite Hparse. simpl bind.
  rewrite !findAll_documentOrder. unfold referencesOfClass. rewrite <- !map_app.
  apply mapM_total.
  rewrite !Forall_app; repeat split; apply Forall_forall; intros n Hn;
    apply filter_In in Hn as [_ Hn]; apply templateValue_directive;
    unfold isInclusionDirective; rewrite Hn; rewrite ?orb_true_r; reflexivity.
Qed.

End CollectorValue.

(** X6.  When the directives of a template are all of one class, only
    includes say, the collector returns their template names in document
    order. *)
Theorem getDependencies_single_class (parse : string -> result node)
    (source : string) (nodes : node) (t : nodeType) :
  parse source = Ok nodes ->
  (forall n, In n (descendants nodes) -> isInclusionDirective n = true ->
             instanceOf n t = true) ->
  getDependencies parse source = Ok (referencesInDocumentOrder nodes).
Proof.
  intros Hparse Hclass. rewrite (getDependencies_value _ _ _ Hparse). f_equal.
  unfold referencesOfClass, referencesInDocumentOrder.
  assert (Hsplit : forall c,
             List.filter (fun n => instanceOf n c) (descendants nodes)
             = if existsb (fun d => instanceOf d c && instanceOf d t)
                    [Extends (Symbol ""); Include (Symbol "");
                     Import (Symbol "") (Symbol "");
                     FromImport (Symbol "") (Symbol "")]
               then List.filter isInclusionDirective (descendants nodes)
               else if existsb (fun d => instanceOf d c)
                    [Extends (Symbol ""); Include (Symbol "");
                     Import (Symbol "") (Symbol "");
                     FromImport (Symbol "") (Symbol "")]
               then []
               else List.filter (fun n => instanceOf n c) (descendants nodes)).
  { intros c. destruct c, t; cbn [existsb instanceOf andb orb]; try reflexivity;
      (apply filter_ext_in || apply filter_none);
      intros n Hn; specialize (Hclass n Hn);
      destruct n; simpl in *; try reflexivity;
      specialize (Hclass eq_refl); discriminate Hclass. }
  rewrite (Hsplit TExtends), (Hsplit TInclude), (Hsplit TImport), (Hsplit TFromImport).
  destruct t; cbn [existsb instanceOf andb orb app]; rewrite ?app_nil_r;
    try reflexivity.
  all: symmetry; f_equal; apply filter_none; intros n Hn;
    specialize (Hclass n Hn); destruct n; simpl in *; try reflexivity;
    specialize (Hclass eq_refl); discriminate Hclass.
Qed.

Lemma getDependencies_single_class_witness :
  getDependencies
    (fun _ => Ok (NodeList [Other [Include (Literal (VStr "b.njk"))];
                            Include (Literal (VStr "a.njk"))])) "src"
  = Ok [VStr "b.njk"; VStr "a.njk"].
Proof.
  apply (getDependencies_single_class _ "src"
           (NodeList [Other [Include (Literal (VStr "b.njk"))];
                      Include (Literal (VStr "a.njk"))]) TInclude eq_refl).
  intros n Hn Hdir. cbv [descendants fieldsOf flat_map documentOrder app] in Hn.
  simpl in Hn. intuition (subst; try discriminate Hdir; reflexivity).
Defined.

(** X7.  The collector reads the [value] of a directive's template
    expression and evaluates nothing: for a template named by a symbol the
    entry is the symbol's name, and for one named by a concatenation the
    entry is [undefined]. *)
Theorem getDependencies_template_expression (parse : string -> result node)
    (source : string) (nodes directive template : node) :
  parse source = Ok nodes ->
  In directive (descendants nodes) ->
  isInclusionDirective directive = true ->
  templateOf directive = Some template ->
  exists values,
    getDependencies parse source = Ok values
    /\ In (valueOf template) values
    /\ (forall name, template = Symbol name -> In (VStr name) values)
    /\ (forall l r, template = Add l r -> In VUndefined values).
Proof.
  intros Hparse Hin Hdir Htemplate.
  eexists. split; [exact (getDependencies_value _ _ _ Hparse)|].
  assert (Hval : In (valueOf template)
                   (referencesOfClass TExtends nodes ++ referencesOfClass TInclude nodes ++
                    referencesOfClass TImport nodes ++ referencesOfClass TFromImport nodes)).
  { assert (Hname : templateName directive = valueOf template).
    { destruct directive; try discriminate Htemplate;
        injection Htemplate as <-; reflexivity. }
    rewrite <- Hname. unfold referencesOfClass. rewrite !in_app_iff.
    destruct directive; try discriminate Hdir;
      [left | right; left | right; right; left | right; right; right];
      apply in_map, filter_In; split; (assumption || reflexivity). }
  split; [assumption|]. split.
  - intros name ->. exact Hval.
  - intros l r ->. exact Hval.
Qed.

Lemma getDependencies_template_expression_witness :
  exists values,
    getDependencies
      (fun _ => Ok (NodeList [Include (Add (Literal (VStr "partials/")) (Symbol "name"))]))
      "src" = Ok values
    /\ In VUndefined values.
Proof.
  destruct (getDependencies_template_expression
              (fun _ => Ok (NodeList [Include (Add (Literal (VStr "partials/"))
                                                   (Symbol "name"))]))
              "src" _ (Include (Add (Literal (VStr "partials/")) (Symbol "name")))
              (Add (Literal (VStr "partials/")) (Symbol "name"))
              eq_refl (or_introl eq_refl) eq_refl eq_refl)
    as (values & Hv & _ & _ & Hadd).
  exists values. split; [assumption | now apply (Hadd _ _ eq_refl)].
Defined.

(** ** Path resolution *)

Section ResolutionSuccess.

Variable existsOnDisk : string -> bool.
Variable resolvePath : string -> value -> string.

Lemma resolveAs_fulfilled (kind : string) (name : value) (paths : list string)
    (found : string) :
  find existsOnDisk paths = Some found ->
  resolveAs existsOnDisk kind (name, paths) = Ok (name, found).
Proof. intros H. unfold resolveAs, getFirstExistedPath. now rewrite H. Qed.

Lemma map_Ok_injective {A} (xs ys : list A) :
  map (@Ok A) xs = map (@Ok A) ys -> xs = ys.
Proof.
  revert ys. induction xs as [|x xs IH]; intros [|y ys] H; try discriminate.
  - reflexivity.
  - injection H as -> H. f_equal. now apply IH.
Qed.

Lemma find_exists_Some {A} (p : A -> bool) (l : list A) :
  (exists x, In x l /\ p x = true) -> exists y, find p l = Some y.
Proof.
  intros (x & Hx & Hp). destruct (find p l) as [y|] eqn:E; [now exists y|].
  rewrite (find_none _ _ E x Hx) in Hp. discriminate.
Qed.

(** When every name has a candidate that exists, the promises are all
    fulfilled, each with the name and its first existing candidate. *)
Lemma resolveAs_all_fulfilled (kind : string) (names : list value)
    (dirs : list string) :
  (forall name, In name names ->
     exists dir, In dir dirs /\ existsOnDisk (resolvePath dir name) = true) ->
  exists pairs,
    map (resolveAs existsOnDisk kind) (getPossiblePaths resolvePath names dirs)
      = map Ok pairs
    /\ map fst pairs = names
    /\ Forall (fun pair =>
                 find existsOnDisk (map (fun dir => resolvePath dir (fst pair)) dirs)
                 = Some (snd pair)) pairs.
Proof.
  induction names as [|name names IH]; intros H.
  - exists []. repeat split; constructor.
  - destruct IH as (pairs & Hmap & Hfst & Hall).
    { intros n Hn. apply H. now right. }
    destruct (find_exists_Some existsOnDisk
                (map (fun dir => resolvePath dir name) dirs)) as [found Hfound].
    { destruct (H name (or_introl eq_refl)) as (dir & Hdir & Hex).
      exists (resolvePath dir name). split; [|assumption].
      apply in_map_iff. now exists dir. }
    exists ((name, found) :: pairs). repeat split.
    + cbn [getPossiblePaths map]. rewrite (resolveAs_fulfilled _ _ _ _ Hfound).
      f_equal. exact Hmap.
    + simpl. now rewrite Hfst.
    + constructor; assumption.
Qed.

End ResolutionSuccess.

(** X8.  When every template reference has a candidate that exists, the
    resolution of the template dependencies can only fulfil, with one pair
    per reference, in the order of the references and duplicates kept: the
    name as written and the first candidate, in search order, that
    exists. *)
Theorem getDependenciesImports_fulfilled
    (existsOnDisk : string -> bool) (resolvePath : string -> value -> string)
    (nodes : node) (searchPaths : list string) (names : list value) :
  getDependenciesTemplates nodes = Ok names ->
  (forall name, In name names ->
     exists dir, In dir searchPaths /\ existsOnDisk (resolvePath dir name) = true) ->
  exists promises pairs,
    getDependenciesImports existsOnDisk resolvePath nodes searchPaths = Ok promises
    /\ (forall outcome, Promise.all promises outcome <-> outcome = Ok pairs)
    /\ map fst pairs = names
    /\ Forall (fun pair =>
                 find existsOnDisk
                   (map (fun dir => resolvePath dir (fst pair)) searchPaths)
                 = Some (snd pair)) pairs.
Proof.
  intros Hnames Hexist.
  destruct (resolveAs_all_fulfilled existsOnDisk resolvePath "Template"
              names searchPaths Hexist) as (pairs & Hmap & Hfst & Hall).
  eexists. exists pairs. split.
  - unfold getDependenciesImports. rewrite Hnames. reflexivity.
  - rewrite Hmap. repeat split; try assumption.
    + intros Hout. inversion Hout as [vs Hvs | ps e He]; subst.
      * f_equal. now apply map_Ok_injective.
      * apply in_map_iff in He as (x & Hx & _). discriminate.
    + intros ->. constructor.
Qed.

Lemma getDependenciesImports_fulfilled_witness :
  exists promises pairs,
    getDependenciesImports
      (fun p => String.eqb p "views/a.njk" || String.eqb p "shared/a.njk")
      (fun dir name => dir ++ "/" ++ toString name)
      (NodeList [Include (Literal (VStr "a.njk"))]) ["lib"; "views"; "shared"]
      = Ok promises
    /\ Promise.all promises (Ok pairs)
    /\ pairs = [(VStr "a.njk", "views/a.njk")].
Proof.
  destruct (getDependenciesImports_fulfilled
              (fun p => String.eqb p "views/a.njk" || String.eqb p "shared/a.njk")
              (fun dir name => dir ++ "/" ++ toString name)
              (NodeList [Include (Literal (VStr "a.njk"))]) ["lib"; "views"; "shared"]
              [VStr "a.njk"] eq_refl)
    as (promises & pairs & Hp & Hall & Hfst & Hfirst).
  { intros name [<-|[]]. exists "views". split; [simpl; tauto | reflexivity]. }
  exists promises, pairs. split; [assumption|]. split; [now apply Hall|].
  destruct pairs as [|[n p] [|? ?]]; try discriminate Hfst.
  injection Hfst as ->. apply Forall_inv in Hfirst. simpl in Hfirst.
  now injection Hfirst as <-.
Defined.

(** ** The asset rewriter *)

Section RewriterSequence.

Lemma replaceEach_None (assets : list (string * string)) :
  replaceEach assets None = None.
Proof. induction assets as [|a assets IH]; [reflexivity | exact IH]. Qed.

Lemma replaceAssets_replaceEach (text : string) (assets : list (string * string)) :
  replaceAssets text assets = replaceEach assets (Some text).
Proof. destruct assets; reflexivity. Qed.

End RewriterSequence.

(** X9.  Rewriting with two lists one after the other is rewriting with
    the lists put end to end: the entries are applied in the order given,
    each to the text the one before it left. *)
Theorem replaceAssets_app (precompiled : string)
    (first second : list (string * string)) :
  replaceAssets precompiled (first ++ second) =
  match replaceAssets precompiled first with
  | Some text => replaceAssets text second
  | None => None
  end.
Proof.
  rewrite !replaceAssets_replaceEach. unfold replaceEach at 1.
  rewrite fold_left_app. fold (replaceEach first (Some precompiled)).
  destruct (replaceEach first (Some precompiled)) as [text|].
  - now rewrite replaceAssets_replaceEach.
  - apply replaceEach_None.
Qed.

Section StaticReplace.
Import JsString RegExp JsReplace.

Lemma length_drop (k : nat) (s : string) :
  String.length (drop k s) = String.length s - k.
Proof.
  revert s. induction k as [|k IH]; intros s; [simpl; lia|].
  destruct s as [|c s]; [reflexivity | simpl; apply IH].
Qed.

Lemma prefix_length (q s : string) :
  String.prefix q s = true -> String.length q <= String.length s.
Proof.
  intros H. apply prefix_true_inv in H. rewrite H, length_append. lia.
Qed.

(** A pattern of literal characters matches where the text starts with
    them, and captures nothing. *)
Lemma matchHere_literal (q s : string) :
  matchHere (map Char (list_ascii_of_string q)) s =
  if String.prefix q s then Some ([], drop (String.length q) s) else None.
Proof.
  revert s. induction q as [|c q IH]; intros s.
  - rewrite prefix_nil. reflexivity.
  - destruct s as [|d s]; [reflexivity|].
    cbn [list_ascii_of_string map matchHere]. rewrite prefix_cons.
    destruct (Ascii.eqb c d); [apply IH | reflexivity].
Qed.

Lemma concat_split_cons (r q : string) (c : ascii) (s : string) :
  q <> EmptyString ->
  String.prefix q (String c s) = false ->
  String.concat r (split (String c s) q) = String c (String.concat r (split s q)).
Proof.
  intros Hq Hp. rewrite (split_unfold q (String c s)) by assumption.
  rewrite breakOn_step by assumption. rewrite (split_unfold q s) by assumption.
  destruct (breakOn q s) as [[b a]|]; [|reflexivity].
  rewrite !concat_cons_nonempty by apply split_nonempty. reflexivity.
Qed.

(** Replacing every match of a literal pattern by one text is cutting the
    subject at the literal and joining the parts with that text. *)
Lemma replaceFrom_literal (q r subject : string)
    (fn : string -> list replacerArg -> string) :
  q <> EmptyString ->
  (forall matched args, fn matched args = r) ->
  forall s offset skip,
    skip <= String.length s ->
    replaceFrom (map Char (list_ascii_of_string q)) fn subject offset skip s
    = String.concat r (split (drop skip s) q).
Proof.
  intros Hq Hfn. induction s as [|c s IH]; intros offset skip Hskip.
  - simpl in Hskip. replace skip with 0 by lia. cbn [replaceFrom drop].
    rewrite matchHere_literal. destruct q; [congruence | reflexivity].
  - destruct skip as [|skip].
    + cbn [replaceFrom drop]. rewrite matchHere_literal.
      destruct (String.prefix q (String c s)) eqn:Ep.
      * pose proof (prefix_length _ _ Ep) as Hlen.
        rewrite Hfn, length_drop.
        replace (String.length (String c s) - (String.length (String c s) - String.length q))
          with (String.length q) by lia.
        destruct (Nat.eqb_spec (String.length q) 0) as [E0|_].
        { destruct q; [congruence | discriminate E0]. }
        rewrite IH by (simpl in Hlen; lia).
        rewrite (split_unfold q (String c s)) by assumption.
        rewrite breakOn_here by assumption.
        rewrite concat_cons_nonempty by apply split_nonempty.
        destruct q as [|x q]; [congruence|]. cbn [String.length drop].
        replace (S (String.length q) - 1) with (String.length q) by lia.
        reflexivity.
      * rewrite IH by lia. cbn [drop].
        now rewrite concat_split_cons.
    + cbn [replaceFrom drop]. apply IH. simpl in Hskip. lia.
Qed.

End StaticReplace.

(** X10.  For a static path the rewriter puts the bare lookup in the place
    of every occurrence of the path in double quotes, leftmost first, and
    of nothing else: the result is the text cut at the quoted path and
    joined again with the lookup.  A character such as [.] in the path
    stands for itself only. *)
Theorem replaceAssetPath_static (uuid path precompiled : string) :
  isDynamicPath path = false ->
  replaceAssetPath precompiled (uuid, path)
  = Some (String.concat (lookupExpression uuid)
            (JsString.split precompiled (quoted path))).
Proof.
  intros Hstatic. unfold replaceAssetPath.
  rewrite (getAssetReplaceRegExp_static path Hstatic).
  unfold getArgs. rewrite Hstatic. f_equal. unfold JsReplace.replace, staticPattern.
  rewrite (replaceFrom_literal (quoted path) (lookupExpression uuid)).
  - reflexivity.
  - discriminate.
  - reflexivity.
  - simpl. lia.
Qed.

Lemma replaceAssetPath_static_witness :
  replaceAssetPath
    ("src=" ++ quoted "a.png" ++ " alt=" ++ quoted "aXpng" ++ " " ++ quoted "a.png")
    ("id7", "a.png")
  = Some ("src=_templateAssets['id7'] alt=" ++ quoted "aXpng"
          ++ " _templateAssets['id7']").
Proof.
  rewrite (replaceAssetPath_static "id7" "a.png" _ eq_refl). reflexivity.
Defined.

(** X11.  The replacer never puts more than [argsCount] arguments after the
    lookup: with a count up to the number of captures it keeps that many of
    them, the first ones, and none with a count of zero.  With a count one
    above the number of captures the offset of the match, in decimal,
    comes in as a further argument. *)
Theorem assetReplacer_slice (uuid matched : string) (captures : list string)
    (offset : nat) (subject : string) (argsCount : nat) :
  let args := (map JsString.Capture captures
                 ++ [JsString.Offset offset; JsString.Subject subject])%list in
  (argsCount <= List.length captures ->
   assetReplacer uuid argsCount matched args
   = String.concat "," (lookupExpression uuid :: firstn argsCount captures))
  /\ assetReplacer uuid (S (List.length captures)) matched args
     = String.concat ","
         (lookupExpression uuid
            :: captures ++ [NilEmpty.string_of_uint (Nat.to_uint offset)]).
Proof.
  intros args. unfold args, assetReplacer, lookupExpression. split.
  - intros Hle. rewrite firstn_app, length_map.
    replace (argsCount - List.length captures) with 0 by lia.
    rewrite firstn_O, app_nil_r, firstn_map, map_map. simpl JsString.argToString.
    now rewrite map_id.
  - rewrite firstn_app, length_map.
    replace (S (List.length captures) - List.length captures) with 1 by lia.
    rewrite firstn_all2 by (rewrite length_map; lia).
    cbn [firstn]. rewrite map_app, map_map. simpl. now rewrite map_id.
Qed.

Lemma assetReplacer_slice_witness :
  assetReplacer "id" 1 "m"
    [JsString.Capture "a"; JsString.Capture "b"; JsString.Offset 12; JsString.Subject "s"]
  = "_templateAssets['id'],a".
Proof.
  exact (proj1 (assetReplacer_slice "id" "m" ["a"; "b"] 12 "s" 1)
               (le_S _ _ (le_n 1))).
Defined.

Section PlusFree.
Import JsString RegExp JsReplace.

Lemma instantiate_In (re : regexp) (captures : list string) (matched : string)
    (c : ascii) :
  instantiate re captures = Some matched ->
  In (Char c) re -> In c (list_ascii_of_string matched).
Proof.
  revert captures matched. induction re as [|[d|] re IH]; intros captures matched H Hin.
  - destruct Hin.
  - cbn [instantiate] in H.
    destruct (instantiate re captures) as [m|] eqn:E; [|discriminate].
    injection H as <-. destruct Hin as [[= ->]|Hin]; [now left|].
    right. now apply (IH captures).
  - cbn [instantiate] in H. destruct captures as [|capture captures]; [discriminate|].
    destruct (instantiate re captures) as [m|] eqn:E; [|discriminate].
    injection H as <-. destruct Hin as [Hin|Hin]; [discriminate|].
    rewrite list_ascii_append, in_app_iff. right. now apply (IH captures).
Qed.

(** A pattern that holds a literal character matches nowhere in a text
    without that character. *)
Lemma test_without_char (re : regexp) (c : ascii) (s : string) :
  In (Char c) re -> ~ In c (list_ascii_of_string s) -> test re s = false.
Proof.
  intros Hre. induction s as [|d s IH]; intros Hs; cbn [test].
  - destruct (matchHere re "") as [[captures rest]|] eqn:E; [|reflexivity].
    destruct (matchHere_sound _ _ _ _ E) as (m & Hm & Heq & _).
    exfalso. apply Hs. rewrite Heq, list_ascii_append, in_app_iff. left.
    now apply (instantiate_In re captures).
  - destruct (matchHere re (String d s)) as [[captures rest]|] eqn:E.
    + destruct (matchHere_sound _ _ _ _ E) as (m & Hm & Heq & _).
      exfalso. apply Hs. rewrite Heq, list_ascii_append, in_app_iff. left.
      now apply (instantiate_In re captures).
    + apply IH. intros Hin. apply Hs. now right.
Qed.

Lemma dynamicPattern_has_plus (path : string) :
  isDynamicPath path = true -> In (Char "+") (dynamicPattern path).
Proof.
  unfold isDynamicPath, includes, dynamicPattern. intros H.
  rewrite split_unfold by discriminate.
  destruct (breakOn " + " path) as [[b a]|]; [|discriminate].
  pose proof (split_nonempty a " + ") as Hne.
  destruct (split a " + ") as [|x rest]; [congruence|].
  change (joinPatterns (map fragmentPattern (b :: x :: rest)))
    with (fragmentPattern b ++ map Char (list_ascii_of_string " + ") ++
          joinPatterns (map fragmentPattern (x :: rest)))%list.
  rewrite in_app_iff. right. simpl. tauto.
Qed.

End PlusFree.

(** X12.  A dynamic entry changes nothing in a text that has no plus sign:
    its pattern always holds the joining [" + "]. *)
Theorem replaceAssetPath_dynamic_needs_plus (uuid path precompiled : string) :
  isDynamicPath path = true ->
  ~ In "+"%char (list_ascii_of_string precompiled) ->
  replaceAssetPath precompiled (uuid, path) = Some precompiled.
Proof.
  intros Hdyn Hplus. apply replaceAssetPath_no_match.
  unfold matchesSomewhere. simpl snd.
  rewrite (getAssetReplaceRegExp_dynamic path Hdyn).
  apply (test_without_char _ "+"); [now apply dynamicPattern_has_plus | assumption].
Qed.

Lemma replaceAssetPath_dynamic_needs_plus_witness :
  replaceAssetPath ("static(" ++ quoted "img/logo.png" ++ ")")
    ("id", quoted "img/" ++ " + name + " ++ quoted ".png")
  = Some ("static(" ++ quoted "img/logo.png" ++ ")").
Proof.
  apply replaceAssetPath_dynamic_needs_plus; [reflexivity|].
  simpl. intuition discriminate.
Defined.

(** ** Extension imports *)

Section ExtensionImports.

Lemma concat_empty_cons (x : string) (l : list string) :
  String.concat "" (x :: l) = x ++ String.concat "" l.
Proof. destruct l; simpl; [now rewrite append_nil_r | reflexivity]. Qed.

Lemma concat_empty_app (l1 l2 : list string) :
  String.concat "" (l1 ++ l2) = String.concat "" l1 ++ String.concat "" l2.
Proof.
  induction l1 as [|x l1 IH]; [reflexivity|].
  change ((x :: l1) ++ l2)%list with (x :: (l1 ++ l2))%list.
  now rewrite !concat_empty_cons, IH, append_assoc.
Qed.

End ExtensionImports.

(** X13.  The import text of a list of extensions is the import texts of
    its extensions one after the other, nothing between them and nothing
    around them: that of two lists put end to end is the two texts put end
    to end, and that of no extension is empty. *)
Theorem getExtensions_imports_app
    (loaderContext : Type) (IMPORTS_PREFIX TEMPLATE_DEPENDENCIES : string)
    (toVar : string -> string) (getImportStr : string -> string -> string)
    (stringifyRequest : loaderContext -> string -> string)
    (getModuleOutput : string -> string)
    (context : loaderContext) (first second : list addon) :
  let importsOf := fun extensions =>
    imports loaderContext
      (getExtensions loaderContext IMPORTS_PREFIX TEMPLATE_DEPENDENCIES toVar
         getImportStr stringifyRequest getModuleOutput extensions) context in
  importsOf (first ++ second)%list = importsOf first ++ importsOf second
  /\ importsOf [] = EmptyString
  /\ (forall extension,
        importsOf [extension]
        = extensionImport loaderContext IMPORTS_PREFIX TEMPLATE_DEPENDENCIES toVar
            getImportStr stringifyRequest getModuleOutput context extension).
Proof.
  intros importsOf. unfold importsOf, getExtensions. cbn [imports].
  repeat split. now rewrite map_app, concat_empty_app.
Qed.

(** ** A path against its own pattern *)

Section OwnPattern.
Import JsString RegExp JsReplace.

(** Joining the parts of a split gives the text back. *)
Lemma concat_splitFuel (sep : string) (n : nat) (s : string) :
  String.concat sep (splitFuel n s sep) = s.
Proof.
  revert s. induction n as [|n IH]; intros s; [reflexivity|].
  cbn [splitFuel]. destruct (breakOn sep s) as [[b a]|] eqn:E; [|reflexivity].
  rewrite concat_cons_nonempty.
  - rewrite IH. symmetry. now apply breakOn_Some.
  - destruct n; simpl; [discriminate|]. now destruct (breakOn sep a) as [[? ?]|].
Qed.

Lemma concat_split (sep s : string) : String.concat sep (split s sep) = s.
Proof. apply concat_splitFuel. Qed.

Lemma matchHere_chars_append (q : string) (re : regexp) (s : string) :
  matchHere (map Char (list_ascii_of_string q) ++ re)%list (q ++ s) = matchHere re s.
Proof.
  induction q as [|c q IH]; [reflexivity|].
  cbn [list_ascii_of_string map app append matchHere].
  now rewrite Ascii.eqb_refl.
Qed.

(** A group before the joining text takes an argument whole. *)
Lemma matchGroup_argument (continue : string -> option (list string * string))
    (argument tail taken : string) (captures : list string) (rest : string) :
  isArgument argument ->
  continue (" + " ++ tail) = Some (captures, rest) ->
  continue ("+ " ++ tail) = None ->
  matchGroup continue taken (argument ++ " + " ++ tail)
  = Some ((taken ++ argument) :: captures, rest).
Proof.
  intros [Hne Hplus] Hk Hno. revert taken.
  induction argument as [|d argument IH]; intros taken; [congruence|].
  simpl append. cbn [matchGroup].
  destruct (Ascii.eqb_spec d "+") as [->|_].
  - exfalso. apply Hplus. now left.
  - destruct argument as [|d' argument].
    + simpl append. cbn [matchGroup].
      change (Ascii.eqb " " "+") with false. cbv iota.
      change (Ascii.eqb "+" "+") with true. cbv iota.
      change (String "+" (String " " tail)) with ("+ " ++ tail).
      rewrite Hno. change (String " " ("+ " ++ tail)) with (" + " ++ tail).
      now rewrite Hk.
    + rewrite IH.
      * now rewrite append_assoc.
      * discriminate.
      * intros Hin. apply Hplus. now right.
Qed.

(** A group at the end of the pattern takes an argument that ends the
    text. *)
Lemma matchGroup_last (argument taken : string) :
  isArgument argument ->
  matchGroup (matchHere []) taken argument = Some ([taken ++ argument], EmptyString).
Proof.
  intros [Hne Hplus]. revert taken.
  induction argument as [|d argument IH]; intros taken; [congruence|].
  cbn [matchGroup]. destruct (Ascii.eqb_spec d "+") as [->|_].
  - exfalso. apply Hplus. now left.
  - destruct argument as [|d' argument]; [reflexivity|].
    rewrite IH.
    + now rewrite append_assoc.
    + discriminate.
    + intros Hin. apply Hplus. now right.
Qed.

Lemma matchHere_separator_first (re : regexp) (tail : string) :
  matchHere (map Char (list_ascii_of_string " + ") ++ re)%list ("+ " ++ tail) = None.
Proof. reflexivity. Qed.

(** The pattern of the parts matches the parts joined, and captures the
    parts that are not literals. *)
Lemma matchHere_own_parts (parts : list string) :
  parts <> [] ->
  Forall isArgument (List.filter (fun part => negb (startsWith part dquote)) parts) ->
  matchHere (joinPatterns (map fragmentPattern parts)) (String.concat " + " parts)
  = Some (List.filter (fun part => negb (startsWith part dquote)) parts, EmptyString).
Proof.
  intros Hne. induction parts as [|p parts IH]; [congruence|]. intros Hargs.
  destruct parts as [|q parts].
  - cbn [map joinPatterns String.concat List.filter]. unfold fragmentPattern.
    cbn [List.filter] in Hargs.
    destruct (startsWith p dquote); cbn [negb] in *.
    + pose proof (matchHere_chars_append p [] "") as Hp.
      rewrite app_nil_r, append_nil_r in Hp. exact Hp.
    + apply Forall_inv in Hargs. cbn [matchHere].
      exact (matchGroup_last p "" Hargs).
  - change (joinPatterns (map fragmentPattern (p :: q :: parts)))
      with (fragmentPattern p ++ map Char (list_ascii_of_string " + ") ++
            joinPatterns (map fragmentPattern (q :: parts)))%list.
    change (String.concat " + " (p :: q :: parts))
      with (p ++ " + " ++ String.concat " + " (q :: parts)).
    unfold fragmentPattern at 1. cbn [List.filter] in *.
    destruct (startsWith p dquote); cbn [negb] in *.
    + rewrite !matchHere_chars_append. apply IH; [discriminate | assumption].
    + inversion Hargs as [|x l Hp Hrest]; subst.
      cbn [app matchHere].
      rewrite (matchGroup_argument _ p _ ""
                 (List.filter (fun part => negb (startsWith part dquote)) (q :: parts))
                 "" Hp).
      * reflexivity.
      * rewrite matchHere_chars_append. apply IH; [discriminate | assumption].
      * apply matchHere_separator_first.
Qed.

Lemma replaceFrom_skip_all (re : regexp) (fn : string -> list replacerArg -> string)
    (subject s : string) (offset : nat) :
  matchHere re "" = None ->
  replaceFrom re fn subject offset (String.length s) s = EmptyString.
Proof.
  intros Hend. revert offset. induction s as [|c s IH]; intros offset.
  - cbn [String.length replaceFrom]. now rewrite Hend.
  - cbn [String.length replaceFrom]. apply IH.
Qed.

End OwnPattern.

(** X14.  The pattern of a dynamic path matches the text of the path
    itself, whole, when the variables of the path are not empty and hold no
    plus sign, as names do: rewriting that text gives the lookup followed
    by the variables of the path, in order. *)
Theorem replaceAssetPath_own_path (uuid path : string) :
  isDynamicPath path = true ->
  Forall isArgument (getArgs path) ->
  replaceAssetPath path (uuid, path)
  = Some (String.concat "," (lookupExpression uuid :: getArgs path)).
Proof.
  intros Hdyn Hargs. unfold replaceAssetPath.
  rewrite (getAssetReplaceRegExp_dynamic path Hdyn). f_equal.
  assert (Hvars : getArgs path
                  = List.filter (fun part => negb (JsString.startsWith part dquote))
                      (JsString.split path " + ")).
  { unfold getArgs. now rewrite Hdyn. }
  rewrite Hvars in Hargs.
  pose proof (matchHere_own_parts (JsString.split path " + ")
                (split_nonempty _ _) Hargs) as Hmatch.
  rewrite concat_split in Hmatch. fold (dynamicPattern path) in Hmatch.
  assert (Hend : RegExp.matchHere (dynamicPattern path) "" = None).
  { pose proof (test_without_char (dynamicPattern path) "+" ""
                  (dynamicPattern_has_plus path Hdyn)) as Ht.
    cbn [RegExp.test] in Ht.
    destruct (RegExp.matchHere (dynamicPattern path) ""); [|reflexivity].
    discriminate Ht. intros []. }
  unfold JsReplace.replace. destruct path as [|c path].
  - discriminate Hdyn.
  - cbn [JsReplace.replaceFrom]. rewrite Hmatch.
    cbn [String.length Nat.sub Nat.eqb]. rewrite Nat.sub_0_r.
    rewrite (replaceFrom_skip_all _ _ _ _ _ Hend), append_nil_r.
    change (substring 0 (S (String.length path)) (String c path))
      with (String c (substring 0 (String.length path) path)).
    rewrite <- Hvars. apply assetReplacer_captures. now rewrite Hvars.
Qed.

Lemma replaceAssetPath_own_path_witness :
  replaceAssetPath (quoted "img/" ++ " + dir + " ++ quoted "/" ++ " + name")
    ("id", quoted "img/" ++ " + dir + " ++ quoted "/" ++ " + name")
  = Some "_templateAssets['id'],dir,name".
Proof.
  rewrite (replaceAssetPath_own_path "id"
             (quoted "img/" ++ " + dir + " ++ quoted "/" ++ " + name") eq_refl).
  - reflexivity.
  - repeat constructor; simpl; intuition discriminate.
Defined.

(** ** From the evaluator to the rewriter *)



(** ** Usages of globals and filters *)

(** X16.  A declared global is kept exactly when some call in the tree has
    a callee whose value is the global's name, and a declared filter exactly
    when some filter node has that name; the value of the global and the
    module of the filter play no part. *)
Theorem usages_match_by_name (nodes : node) (globals : list (string * value))
    (filters : list addon) :
  (forall name v,
      In (name, v) (getTemplateGlobals nodes globals) <->
      In (name, v) globals
      /\ exists n, In n (findAll TFunCall nodes) /\ nameValueOf n = VStr name)
  /\ (forall name path instance,
      In (name, path, instance) (usedFilters nodes filters) <->
      In (name, path, instance) filters
      /\ exists n, In n (findAll TFilter nodes) /\ nameValueOf n = VStr name).
Proof.
  unfold getTemplateGlobals, usedFilters, getUsagesOf. split.
  - intros name v. rewrite filter_In, existsb_exists. split.
    + intros [Hin (n & Hn & Hm)]. split; [assumption|]. exists n.
      split; [assumption|]. now apply strictEq_true in Hm.
    + intros [Hin (n & Hn & Hm)]. split; [assumption|]. exists n.
      split; [assumption|]. now apply strictEq_true.
  - intros name path instance. rewrite filter_In, existsb_exists. split.
    + intros [Hin (n & Hn & Hm)]. split; [assumption|]. exists n.
      split; [assumption|]. apply strictEq_true in Hm. now symmetry.
    + intros [Hin (n & Hn & Hm)]. split; [assumption|]. exists n.
      split; [assumption|]. apply strictEq_true. now symmetry.
Qed.
